(** * Decoding core of main.py: top-k / top-p filtering and the generation loop

    Shallow embedding of [top_k_top_p_filtering] and [generate] from
    src/main.py.  Logits are real numbers extended with the filter value
    [-inf]; the model and [torch.multinomial] are external capabilities
    and are taken as parameters of the decoding section. *)

From Stdlib Require Import List Bool Arith Lia ZArith Reals Lra.
From Stdlib Require Import Permutation Sorting.Sorted.
From Stdlib Require Strings.String Strings.Ascii DecimalString.
Import ListNotations String.StringSyntax.
Delimit Scope string_scope with string.

(** ** Extended reals: a float logit is a real number or [-inf]. *)

Inductive ER : Type :=
| Fin (r : R)
| NInf.

(** [x < y] on tensors of floats. *)
Definition ER_ltb (x y : ER) : bool :=
  match x, y with
  | NInf, Fin _ => true
  | Fin a, Fin b => if Rlt_dec a b then true else false
  | _, NInf => false
  end.

Definition is_fin (x : ER) : bool :=
  match x with Fin _ => true | NInf => false end.

(** [exp] with [exp(-inf) = 0]. *)
Definition ER_exp (x : ER) : R :=
  match x with Fin r => exp r | NInf => 0%R end.

(** [filter_value=-float('Inf')], the default that every caller uses. *)
Definition filter_value : ER := NInf.

Definition sumR (l : list R) : R := fold_right Rplus 0%R l.

(** [F.softmax(x, dim=-1)] on a 1-D tensor. *)
Definition softmax (l : list ER) : list R :=
  let z := sumR (map ER_exp l) in
  map (fun x => (ER_exp x / z)%R) l.

(** [torch.cumsum(x, dim=-1)] on a 1-D tensor. *)
Fixpoint cumsum_from (acc : R) (l : list R) : list R :=
  match l with
  | [] => []
  | x :: l' => (acc + x)%R :: cumsum_from (acc + x)%R l'
  end.

Definition cumsum (l : list R) : list R := cumsum_from 0%R l.

(** Element [i] of a 1-D tensor. *)
Definition at_ (v : list ER) (i : nat) : ER := nth i v NInf.

(** [torch.sort(logits, descending=True)]: [j] is placed before [i] when
    its value is larger.  torch leaves the order of equal values
    unspecified; this embedding puts equal values in ascending index
    order. *)
Definition sort_before (v : list ER) (j i : nat) : bool :=
  ER_ltb (at_ v i) (at_ v j)
  || (negb (ER_ltb (at_ v j) (at_ v i)) && Nat.ltb j i).

Fixpoint insert_desc (v : list ER) (i : nat) (l : list nat) : list nat :=
  match l with
  | [] => [i]
  | j :: l' => if sort_before v i j then i :: l else j :: insert_desc v i l'
  end.

Definition sort_indices (v : list ER) : list nat :=
  fold_right (insert_desc v) [] (seq 0 (length v)).

(** Returns [(sorted_logits, sorted_indices)]. *)
Definition torch_sort (v : list ER) : list ER * list nat :=
  let idx := sort_indices v in (map (at_ v) idx, idx).

(** [logits[mask] = x] for a boolean mask. *)
Definition masked_fill (l : list ER) (mask : list bool) (x : ER) : list ER :=
  map (fun p : ER * bool => if snd p then x else fst p) (combine l mask).

(** [logits[idx] = x] for a tensor of indices. *)
Definition index_fill (l : list ER) (idx : list nat) (x : ER) : list ER :=
  map (fun p : nat * ER => if existsb (Nat.eqb (fst p)) idx then x else snd p)
      (combine (seq 0 (length l)) l).

(** [m[..., 1:] = m[..., :-1].clone(); m[..., 0] = 0]. *)
Definition shift_right (m : list bool) : list bool :=
  match m with
  | [] => []
  | _ :: _ => false :: removelast m
  end.

(** Lines 21-25. *)
Definition top_k_step (logits : list ER) (top_k : Z) : list ER :=
  let top_k := Z.min top_k (Z.of_nat (length logits)) in
  if (0 <? top_k)%Z then
    (* torch.topk(logits, top_k)[0][..., -1]: the top_k-th largest value *)
    let thr := nth (Z.to_nat top_k - 1) (fst (torch_sort logits)) NInf in
    let indices_to_remove := map (fun x => ER_ltb x thr) logits in
    masked_fill logits indices_to_remove filter_value
  else logits.

(** Lines 27-38.  On an empty vector, line 35 raises [IndexError]; this
    returns the empty vector ([generate] never filters an empty vector). *)
Definition top_p_step (logits : list ER) (top_p : R) : list ER :=
  if Rlt_dec 0 top_p then
    let '(sorted_logits, sorted_indices) := torch_sort logits in
    let cumulative_probs := cumsum (softmax sorted_logits) in
    let sorted_indices_to_remove :=
      map (fun c => if Rlt_dec top_p c then true else false) cumulative_probs in
    let sorted_indices_to_remove := shift_right sorted_indices_to_remove in
    let indices_to_remove :=
      map fst (filter snd (combine sorted_indices sorted_indices_to_remove)) in
    index_fill logits indices_to_remove filter_value
  else logits.

Definition top_k_top_p_filtering (logits : list ER) (top_k : Z) (top_p : R)
  : list ER :=
  top_p_step (top_k_step logits top_k) top_p.

(** ** Python indexing and slicing *)

(** An index [i] into a tensor of length [n]; negative indices count
    from the end, anything else raises [IndexError] ([None]). *)
Definition py_index (n : nat) (i : Z) : option nat :=
  if ((0 <=? i) && (i <? Z.of_nat n))%Z then Some (Z.to_nat i)
  else if ((- Z.of_nat n <=? i) && (i <? 0))%Z then Some (Z.to_nat (i + Z.of_nat n))
  else None.

(** [l[start:]]. *)
Definition py_slice_from {A : Type} (l : list A) (start : Z) : list A :=
  let n := Z.of_nat (length l) in
  let s := if (start <? 0)%Z then Z.max 0 (n + start) else Z.min start n in
  skipn (Z.to_nat s) l.

Fixpoint set_nth {A : Type} (l : list A) (i : nat) (x : A) : list A :=
  match l, i with
  | [], _ => []
  | _ :: l', O => x :: l'
  | y :: l', S i' => y :: set_nth l' i' x
  end.

Fixpoint opt_mapM {A B : Type} (f : A -> option B) (l : list A) : option (list B) :=
  match l with
  | [] => Some []
  | x :: l' =>
      match f x with
      | None => None
      | Some y => match opt_mapM f l' with None => None | Some ys => Some (y :: ys) end
      end
  end.

(** [t[i] = x] with a single (possibly negative) index. *)
Definition py_setitem {A : Type} (l : list A) (i : Z) (x : A) : option (list A) :=
  match py_index (length l) i with
  | None => None
  | Some j => Some (set_nth l j x)
  end.

(** Lines 52-53: [for id in set(generated): next_token_logits[id] /= rp].
    [generated] has shape (1, T), so the set holds the single row, and the
    body runs once with [id] the whole 1-D index tensor: the values at all
    indices are gathered first, divided, then written back.  Division is
    the real one: at [rp = 0] torch gives [inf] or [nan] where this gives
    [0], so statements about the values computed assume [rp <> 0]. *)
Definition penalize (logits : list R) (ids : list Z) (rp : R) : option (list R) :=
  match opt_mapM (py_index (length logits)) ids with
  | None => None
  | Some pos =>
      let vals := map (fun j => (nth j logits 0 / rp)%R) pos in
      Some (fold_left (fun acc (p : nat * R) => set_nth acc (fst p) (snd p)) (combine pos vals) logits)
  end.

(** Line 49: [generated[0][-(n_ctx - 1):]]. *)
Definition window (generated : list Z) (n_ctx : Z) : list Z :=
  py_slice_from generated (- (n_ctx - 1))%Z.

(** ** The generation loop (lines 42-59) *)
Section Decoder.
(** State of the random generator used by [torch.multinomial]. *)
Variable Gen : Type.
(** The model: the logits of the last position for an input context;
    [None] when inference fails. *)
Variable model : list Z -> option (list R).
(** [torch.multinomial(probs, num_samples=1)]: one index and the next
    generator state; [None] when torch raises. *)
Variable sample : Gen -> list R -> option (Z * Gen).
Variable n_ctx : Z.
(** [tokenizer.convert_tokens_to_ids('[UNK]')]. *)
Variable unk_id : Z.
Variables temperature top_p repitition_penalty : R.
Variable top_k : Z.

(** One iteration of the loop: the next token.  As for [penalize], the
    division by [temperature] is the real one, which differs from torch's
    at [temperature = 0]. *)
Definition gen_step (generated : list Z) (g : Gen) : option (Z * Gen) :=
  match model (window generated n_ctx) with
  | None => None
  | Some next_token_logits =>
      match penalize next_token_logits generated repitition_penalty with
      | None => None
      | Some next_token_logits =>
          let next_token_logits :=
            map (fun x => Fin (x / temperature)) next_token_logits in
          match py_setitem next_token_logits unk_id NInf with
          | None => None
          | Some next_token_logits =>
              let filtered_logits :=
                top_k_top_p_filtering next_token_logits top_k top_p in
              sample g (softmax filtered_logits)
          end
      end
  end.

Fixpoint gen_loop (fuel : nat) (generated : list Z) (g : Gen) : option (list Z) :=
  match fuel with
  | O => Some generated
  | S fuel' =>
      match gen_step generated g with
      | None => None
      | Some (next_token, g') => gen_loop fuel' (generated ++ [next_token]) g'
      end
  end.

(** [for _ in trange(length)] runs [max 0 length] times. *)
Definition generate (context : list Z) (length : Z) (g : Gen) : option (list Z) :=
  gen_loop (Z.to_nat length) context g.
End Decoder.

(** ** Auxiliary notions for the statements *)

(** Softmax probability of entry [i]. *)
Definition prob (v : list ER) (i : nat) : R :=
  (ER_exp (at_ v i) / sumR (map ER_exp v))%R.

(** Indices whose entry is not the filter value. *)
Definition survivors (out : list ER) : list nat :=
  filter (fun i => is_fin (at_ out i)) (seq 0 (length out)).

(** Probability mass of the entries sorted before [i]. *)
Definition mass_before (v : list ER) (i : nat) : R :=
  sumR (map (prob v) (filter (fun j => sort_before v j i) (seq 0 (length v)))).

(** [sort_before] on values and indices. *)
Definition lex_before (x : ER) (j : nat) (y : ER) (i : nat) : bool :=
  ER_ltb y x || (negb (ER_ltb x y) && Nat.ltb j i).

(** The order of [sort_indices] as a relation. *)
Definition before_rel (v : list ER) (a b : nat) : Prop := sort_before v a b = true.

(** A sampler for concrete runs: the first index of positive probability
    (one of the indices [torch.multinomial] may return). *)
Fixpoint first_pos_from (k : nat) (ps : list R) : option Z :=
  match ps with
  | [] => None
  | p :: ps' => if Rlt_dec 0 p then Some (Z.of_nat k) else first_pos_from (S k) ps'
  end.

Definition first_pos_sampler (g : unit) (ps : list R) : option (Z * unit) :=
  match first_pos_from 0 ps with Some i => Some (i, g) | None => None end.

(** ** Text post-processing of [main] (lines 115-128) *)

(** A Python [str] as the list of its code points. *)
Definition pystr := list Z.

(** An ASCII literal as a [pystr]. *)
Definition str (s : String.string) : pystr :=
  map (fun a => Z.of_nat (Ascii.nat_of_ascii a)) (String.list_ascii_of_string s).

Definition newline : pystr := [10%Z].

(** [str(z)] for an integer. *)
Definition py_str_int (z : Z) : pystr :=
  (if (z <? 0)%Z then str "-"%string else []) ++
  str (DecimalString.NilZero.string_of_uint (N.to_uint (Z.to_N (Z.abs z)))).

(** [c.isspace()] for a single code point. *)
Definition py_isspace (c : Z) : bool :=
  existsb (Z.eqb c)
    [9; 10; 11; 12; 13; 28; 29; 30; 31; 32; 133; 160; 5760;
     8192; 8193; 8194; 8195; 8196; 8197; 8198; 8199; 8200; 8201; 8202;
     8232; 8233; 8239; 8287; 12288]%Z.

(** [s.startswith(pat)]. *)
Fixpoint startswith (s pat : pystr) {struct pat} : bool :=
  match pat, s with
  | [], _ => true
  | c :: pat', d :: s' => Z.eqb c d && startswith s' pat'
  | _ :: _, [] => false
  end.

(** The scan of [s.replace(old, new)] for a non-empty [old]: occurrences
    are replaced from the left without overlap; [skip] counts the
    characters of the occurrence just replaced that are still to be
    passed over. *)
Fixpoint replace_from (old new s : pystr) (skip : nat) : pystr :=
  match s with
  | [] => []
  | c :: s' =>
      match skip with
      | S k => replace_from old new s' k
      | O =>
          if startswith s old then new ++ replace_from old new s' (List.length old - 1)
          else c :: replace_from old new s' O
      end
  end.

(** [s.replace(old, new)]; an empty [old] matches before every character
    and at the end. *)
Definition py_replace (s old new : pystr) : pystr :=
  match old with
  | [] => new ++ flat_map (fun c => c :: new) s
  | _ :: _ => replace_from old new s O
  end.

Fixpoint lstrip (s : pystr) : pystr :=
  match s with
  | [] => []
  | c :: s' => if py_isspace c then lstrip s' else s
  end.

(** [s.strip()]. *)
Definition py_strip (s : pystr) : pystr := rev (lstrip (rev (lstrip s))).

(** Lines 117-123: the replacement of one token. *)
Definition special_token (item : pystr) : pystr :=
  if list_eq_dec Z.eq_dec item (str "[MASK]"%string) then []
  else if list_eq_dec Z.eq_dec item (str "[CLS]"%string) then newline ++ newline
  else if list_eq_dec Z.eq_dec item (str "[SEP]"%string) then newline
  else item.

(** Lines 117-127: [''.join(text).replace('##', '').strip()] after the
    token replacements. *)
Definition postprocess (text : list pystr) : pystr :=
  py_strip (py_replace (concat (map special_token text)) (str "##"%string) []).

(** [pat] occurs in [s] as a substring. *)
Definition is_infix (pat s : pystr) : Prop := exists a b, s = a ++ pat ++ b.

(** ** The sampling loop of [main] (lines 92-131) *)

(** Outcome of [main]: it returns with the strings it printed, raises, or
    is still running when the bound on the iterations of [while True] is
    reached. *)
Inductive main_outcome : Type :=
| Returned (printed : list pystr)
| Raised
| Running (printed : list pystr).

(** [print("=" * 80)]. *)
Definition bar : pystr := repeat 61%Z 80.

(** Line 125, the header of a sample. *)
Definition sample_header (generated : Z) : pystr :=
  repeat 61%Z 35 ++ str " SAMPLE "%string ++ py_str_int generated ++ str " "%string
  ++ repeat 61%Z 35 ++ newline.

Section Main.
Variable Gen : Type.
Variable model : list Z -> option (list R).
Variable sample : Gen -> list R -> option (Z * Gen).
(** [model.config.n_ctx]. *)
Variable n_ctx : Z.
(** [tokenizer.convert_tokens_to_ids('[UNK]')]. *)
Variable unk_id : Z.
(** [tokenizer.convert_ids_to_tokens]. *)
Variable convert_ids_to_tokens : list Z -> list pystr.
(** [tokenizer.convert_tokens_to_ids(tokenizer.tokenize(args.prefix))]. *)
Variable context_tokens : list Z.
(** The command line arguments. *)
Variables length nsamples topk : Z.
Variables temperature topp repetition_penalty : R.

(** [generate] with the generator state returned: torch's generator is
    global, so each call continues from the state the previous one left. *)
Fixpoint gen_loop_st (fuel : nat) (generated : list Z) (g : Gen) : option (list Z * Gen) :=
  match fuel with
  | O => Some (generated, g)
  | S fuel' =>
      match gen_step Gen model sample n_ctx unk_id temperature topp repetition_penalty topk
              generated g with
      | None => None
      | Some (next_token, g') => gen_loop_st fuel' (generated ++ [next_token]) g'
      end
  end.

(** Lines 94-95: [if length == -1: length = model.config.n_ctx]. *)
Definition main_length : Z := if (length =? -1)%Z then n_ctx else length.

(** Lines 104-128: the samples, as the strings printed, the counter
    [generated] and the generator state; [None] when a call raises. *)
Fixpoint sample_loop (fuel : nat) (generated : Z) (g : Gen) : option (list pystr * Z * Gen) :=
  match fuel with
  | O => Some ([], generated, g)
  | S fuel' =>
      match gen_loop_st (Z.to_nat main_length) context_tokens g with
      | None => None
      | Some (out, g') =>
          let generated := (generated + 1)%Z in
          let text := postprocess (convert_ids_to_tokens out) in
          match sample_loop fuel' generated g' with
          | None => None
          | Some (printed, generated', g'') =>
              Some (sample_header generated :: text :: printed, generated', g'')
          end
      end
  end.

(** Lines 97-131 after the arguments are printed; [fuel] bounds the
    iterations of [while True]. *)
Fixpoint main_loop (fuel : nat) (g : Gen) : main_outcome :=
  match fuel with
  | O => Running []
  | S fuel' =>
      match sample_loop (Z.to_nat nsamples) 0 g with
      | None => Raised
      | Some (printed, generated, g') =>
          let printed := printed ++ [bar] in
          if (generated =? nsamples)%Z then Returned printed
          else
            match main_loop fuel' g' with
            | Returned p => Returned (printed ++ p)
            | Raised => Raised
            | Running p => Running (printed ++ p)
            end
      end
  end.
End Main.

(** The strings [main] prints for the samples [outs], numbered from [k]. *)
Fixpoint printed_samples (convert_ids_to_tokens : list Z -> list pystr) (k : nat)
  (outs : list (list Z)) : list pystr :=
  match outs with
  | [] => []
  | out :: outs' =>
      sample_header (Z.of_nat k) :: postprocess (convert_ids_to_tokens out)
      :: printed_samples convert_ids_to_tokens (S k) outs'
  end.

(** ** Order on extended reals *)

Ltac er_solve :=
  repeat match goal with x : ER |- _ => destruct x end;
  simpl in *;
  repeat match goal with
         | |- context [Rlt_dec ?a ?b] => destruct (Rlt_dec a b)
         | H : context [Rlt_dec ?a ?b] |- _ => destruct (Rlt_dec a b)
         end;
  try discriminate; try congruence; try (exfalso; lra); try (f_equal; lra); auto.

Lemma ER_ltb_irrefl x : ER_ltb x x = false.
Proof. er_solve. Qed.

Lemma ER_ltb_asym x y : ER_ltb x y = true -> ER_ltb y x = false.
Proof. intros; er_solve. Qed.

Lemma ER_ltb_trans x y z : ER_ltb x y = true -> ER_ltb y z = true -> ER_ltb x z = true.
Proof. intros; er_solve. Qed.

Lemma ER_ltb_antisym x y : ER_ltb x y = false -> ER_ltb y x = false -> x = y.
Proof. intros; er_solve. Qed.

Lemma ER_ltb_split x y z : ER_ltb x z = true -> ER_ltb x y = true \/ ER_ltb y z = true.
Proof. intros; er_solve. Qed.

Lemma ER_ltb_NInf x : ER_ltb x NInf = false.
Proof. er_solve. Qed.

Lemma ER_exp_nonneg x : (0 <= ER_exp x)%R.
Proof. destruct x; simpl; [left; apply exp_pos | lra]. Qed.

(** ** The sort order is a strict total order on indices *)


Lemma sort_before_lex v j i : sort_before v j i = lex_before (at_ v j) j (at_ v i) i.
Proof. reflexivity. Qed.

Lemma sort_before_irrefl v i : sort_before v i i = false.
Proof.
  rewrite sort_before_lex; unfold lex_before.
  rewrite ER_ltb_irrefl, Nat.ltb_irrefl; reflexivity.
Qed.

Lemma sort_before_asym v i j :
  sort_before v i j = true -> sort_before v j i = false.
Proof.
  rewrite !sort_before_lex; generalize (at_ v i) (at_ v j); intros a b H.
  unfold lex_before in *.
  destruct (ER_ltb b a) eqn:E1; simpl in H.
  - rewrite (ER_ltb_asym _ _ E1); reflexivity.
  - destruct (ER_ltb a b) eqn:E2; simpl in *; [discriminate|].
    apply Nat.ltb_lt in H; apply Nat.ltb_ge; lia.
Qed.

Lemma sort_before_trans v i j k :
  sort_before v i j = true -> sort_before v j k = true -> sort_before v i k = true.
Proof.
  rewrite !sort_before_lex; generalize (at_ v i) (at_ v j) (at_ v k); intros a b c H1 H2.
  unfold lex_before in *.
  destruct (ER_ltb b a) eqn:E1, (ER_ltb c b) eqn:E2; simpl in *.
  - rewrite (ER_ltb_trans _ _ _ E2 E1); reflexivity.
  - destruct (ER_ltb b c) eqn:E3; simpl in H2; [discriminate|].
    rewrite (ER_ltb_antisym _ _ E2 E3) in *; rewrite E1; reflexivity.
  - destruct (ER_ltb a b) eqn:E3; simpl in H1; [discriminate|].
    rewrite <- (ER_ltb_antisym _ _ E1 E3) in *; rewrite E2; reflexivity.
  - destruct (ER_ltb a b) eqn:E3; simpl in H1; [discriminate|].
    destruct (ER_ltb b c) eqn:E4; simpl in H2; [discriminate|].
    pose proof (ER_ltb_antisym _ _ E1 E3) as Hab.
    pose proof (ER_ltb_antisym _ _ E2 E4) as Hbc. subst.
    rewrite ER_ltb_irrefl; simpl.
    apply Nat.ltb_lt in H1, H2; apply Nat.ltb_lt; lia.
Qed.

Lemma sort_before_total v i j :
  i <> j -> sort_before v i j = false -> sort_before v j i = true.
Proof.
  rewrite !sort_before_lex; generalize (at_ v i) (at_ v j); intros a b Hij H.
  unfold lex_before in *.
  destruct (ER_ltb b a) eqn:E1; simpl in H; [discriminate|].
  destruct (ER_ltb a b) eqn:E2; simpl in *; [reflexivity|].
  apply Nat.ltb_ge in H; apply Nat.ltb_lt; lia.
Qed.

(** ** The insertion sort behind [torch_sort] *)


Lemma insert_desc_perm v i l : Permutation (insert_desc v i l) (i :: l).
Proof.
  induction l as [|j l IH]; simpl; [auto|].
  destruct (sort_before v i j); [auto|].
  eapply perm_trans; [apply perm_skip, IH|apply perm_swap].
Qed.

Lemma insert_desc_sorted v i l :
  ~ In i l -> StronglySorted (before_rel v) l ->
  StronglySorted (before_rel v) (insert_desc v i l).
Proof.
  induction l as [|j l IH]; intros Hin Hs; simpl.
  - constructor; constructor.
  - apply StronglySorted_inv in Hs as [Hs Hf].
    destruct (sort_before v i j) eqn:E.
    + constructor; [constructor; auto|].
      constructor; [exact E|].
      eapply Forall_impl; [|exact Hf]. intros k Hk. eapply sort_before_trans; eauto.
    + constructor; [apply IH; auto; intro; apply Hin; right; auto|].
      apply Forall_forall; intros k Hk.
      apply (Permutation_in _ (insert_desc_perm v i l)) in Hk.
      destruct Hk as [<-|Hk].
      * apply sort_before_total; auto. intro; subst; apply Hin; left; auto.
      * rewrite Forall_forall in Hf; auto.
Qed.

Lemma fold_insert_perm v l : Permutation (fold_right (insert_desc v) [] l) l.
Proof.
  induction l as [|a l IH]; simpl; [auto|].
  eapply perm_trans; [apply insert_desc_perm|auto].
Qed.

Lemma fold_insert_sorted v l :
  NoDup l -> StronglySorted (before_rel v) (fold_right (insert_desc v) [] l).
Proof.
  induction l as [|a l IH]; intros Hnd; simpl; [constructor|].
  inversion Hnd; subst.
  apply insert_desc_sorted; auto.
  intro H; apply H1. eapply Permutation_in; [apply fold_insert_perm|exact H].
Qed.

Lemma sort_indices_perm v : Permutation (sort_indices v) (seq 0 (length v)).
Proof. apply fold_insert_perm. Qed.

Lemma sort_indices_sorted v : StronglySorted (before_rel v) (sort_indices v).
Proof. apply fold_insert_sorted, seq_NoDup. Qed.

Lemma sort_indices_NoDup v : NoDup (sort_indices v).
Proof.
  eapply Permutation_NoDup; [symmetry; apply sort_indices_perm|apply seq_NoDup].
Qed.

Lemma sort_indices_length v : length (sort_indices v) = length v.
Proof. rewrite (Permutation_length (sort_indices_perm v)), length_seq; reflexivity. Qed.

Lemma sort_indices_In v i : In i (sort_indices v) <-> i < length v.
Proof.
  split; intro H.
  - apply (Permutation_in _ (sort_indices_perm v)), in_seq in H; lia.
  - eapply Permutation_in; [symmetry; apply sort_indices_perm|]. apply in_seq; lia.
Qed.

(** ** List facts *)

Lemma Permutation_filter_bool {A : Type} (f : A -> bool) (l l' : list A) :
  Permutation l l' -> Permutation (filter f l) (filter f l').
Proof.
  induction 1; simpl.
  - constructor.
  - destruct (f x); auto.
  - destruct (f x), (f y); auto using perm_swap, perm_skip.
  - eapply perm_trans; eauto.
Qed.

Lemma sumR_perm (l l' : list R) : Permutation l l' -> sumR l = sumR l'.
Proof. induction 1; simpl; lra. Qed.

Lemma sumR_cons a l : sumR (a :: l) = (a + sumR l)%R.
Proof. reflexivity. Qed.

Lemma sumR_app (l l' : list R) : sumR (l ++ l') = (sumR l + sumR l')%R.
Proof. induction l; simpl; lra. Qed.

Lemma sumR_nonneg {A : Type} (f : A -> R) (l : list A) :
  (forall x, In x l -> 0 <= f x)%R -> (0 <= sumR (map f l))%R.
Proof.
  induction l as [|a l IH]; simpl; intros H; [lra|].
  pose proof (H a (or_introl eq_refl)); pose proof (IH (fun x Hx => H x (or_intror Hx))); lra.
Qed.

Lemma sumR_le {A : Type} (f g : A -> R) (l : list A) :
  (forall x, In x l -> f x <= g x)%R -> (sumR (map f l) <= sumR (map g l))%R.
Proof.
  induction l as [|a l IH]; simpl; intros H; [lra|].
  pose proof (H a (or_introl eq_refl)); pose proof (IH (fun x Hx => H x (or_intror Hx))); lra.
Qed.

Lemma sumR_filter_zero {A : Type} (f : A -> bool) (g : A -> R) (l : list A) :
  (forall x, In x l -> f x = false -> g x = 0%R) ->
  sumR (map g (filter f l)) = sumR (map g l).
Proof.
  induction l as [|a l IH]; simpl; intros H; [reflexivity|].
  destruct (f a) eqn:E; simpl; rewrite IH by auto; [reflexivity|].
  rewrite (H a (or_introl eq_refl) E); lra.
Qed.

Lemma sumR_ge_elem (l : list R) i :
  (forall x, In x l -> 0 <= x)%R -> i < length l -> (nth i l 0 <= sumR l)%R.
Proof.
  revert i; induction l as [|a l IH]; simpl; intros i H Hi; [lia|].
  assert (0 <= sumR l)%R.
  { rewrite <- (map_id l). apply sumR_nonneg. intros; apply H; auto. }
  destruct i; [pose proof (H a (or_introl eq_refl)); lra|].
  pose proof (IH i (fun x Hx => H x (or_intror Hx)) ltac:(lia)); pose proof (H a (or_introl eq_refl)); lra.
Qed.

Lemma map_at_seq (v : list ER) : map (at_ v) (seq 0 (length v)) = v.
Proof.
  apply nth_ext with (d := NInf) (d' := NInf); rewrite length_map, length_seq; [reflexivity|].
  intros n Hn. rewrite nth_indep with (d' := at_ v 0) by (rewrite length_map, length_seq; lia).
  rewrite map_nth, seq_nth by lia. reflexivity.
Qed.

Lemma sumR_exp_sorted v :
  sumR (map ER_exp (map (at_ v) (sort_indices v))) = sumR (map ER_exp v).
Proof.
  apply sumR_perm, Permutation_map.
  eapply perm_trans; [apply Permutation_map, sort_indices_perm|].
  rewrite map_at_seq; apply Permutation_refl.
Qed.

Lemma softmax_sorted v :
  softmax (map (at_ v) (sort_indices v)) = map (prob v) (sort_indices v).
Proof.
  unfold softmax. rewrite sumR_exp_sorted, map_map. reflexivity.
Qed.

Lemma length_cumsum_from a l : length (cumsum_from a l) = length l.
Proof. revert a; induction l; simpl; auto. Qed.

Lemma nth_cumsum_from a l t :
  t < length l -> nth t (cumsum_from a l) 0%R = (a + sumR (firstn (S t) l))%R.
Proof.
  revert a t; induction l as [|x l IH]; simpl; intros a t Ht; [lia|].
  destruct t as [|t]; simpl.
  - lra.
  - rewrite IH by lia. simpl. lra.
Qed.

Lemma nth_removelast {A : Type} (m : list A) t d :
  S t < length m -> nth t (removelast m) d = nth t m d.
Proof.
  revert t; induction m as [|a m IH]; simpl; intros t Ht; [lia|].
  destruct m as [|b m]; simpl in Ht; [lia|].
  destruct t as [|t]; [reflexivity|]. apply IH. simpl; lia.
Qed.

Lemma nth_shift_right m t :
  t < length m ->
  nth t (shift_right m) false = match t with O => false | S t' => nth t' m false end.
Proof.
  intros Ht. destruct m as [|b m']; simpl in Ht; [lia|].
  unfold shift_right. destruct t as [|t]; [reflexivity|].
  change (nth (S t) (false :: removelast (b :: m')) false) with (nth t (removelast (b :: m')) false).
  apply nth_removelast. simpl; lia.
Qed.

Lemma In_fst_filter_snd (l : list nat) (m : list bool) x :
  In x (map fst (filter snd (combine l m))) <->
  exists t, t < length l /\ t < length m /\ nth t l 0 = x /\ nth t m false = true.
Proof.
  revert m; induction l as [|a l IH]; intros m; simpl.
  - split; [intros []|intros (t & Ht & _); lia].
  - destruct m as [|b m]; simpl.
    + split; [intros []|intros (t & _ & Ht & _); lia].
    + destruct b; simpl; rewrite IH; split.
      * intros [<-|(t & H1 & H2 & H3 & H4)]; [exists 0; simpl; repeat split; lia|].
        exists (S t); simpl; repeat split; auto; lia.
      * intros (t & H1 & H2 & H3 & H4). destruct t as [|t]; [left; auto|].
        right; exists t; repeat split; auto; lia.
      * intros (t & H1 & H2 & H3 & H4). exists (S t); simpl; repeat split; auto; lia.
      * intros (t & H1 & H2 & H3 & H4). destruct t as [|t]; [simpl in H4; discriminate|].
        exists t; repeat split; auto; lia.
Qed.

Lemma nth_map_lt {A B : Type} (f : A -> B) l i d d' :
  i < length l -> nth i (map f l) d = f (nth i l d').
Proof.
  intros Hi. rewrite nth_indep with (d' := f d') by (rewrite length_map; auto).
  apply map_nth.
Qed.

Lemma length_index_fill l idx x : length (index_fill l idx x) = length l.
Proof. unfold index_fill. rewrite length_map, length_combine, length_seq. lia. Qed.

Lemma at_index_fill l idx x i :
  i < length l ->
  at_ (index_fill l idx x) i = if existsb (Nat.eqb i) idx then x else at_ l i.
Proof.
  intros Hi. unfold at_, index_fill.
  rewrite nth_map_lt with (d' := (0, NInf)) by (rewrite length_combine, length_seq; lia).
  rewrite combine_nth by (rewrite length_seq; reflexivity).
  rewrite seq_nth by lia. reflexivity.
Qed.

Lemma length_masked_fill l m x :
  length m = length l -> length (masked_fill l m x) = length l.
Proof. intros; unfold masked_fill. rewrite length_map, length_combine. lia. Qed.

Lemma at_masked_fill l m x i :
  length m = length l -> i < length l ->
  at_ (masked_fill l m x) i = if nth i m false then x else at_ l i.
Proof.
  intros Hm Hi. unfold at_, masked_fill.
  rewrite nth_map_lt with (d' := (NInf, false)) by (rewrite length_combine; lia).
  rewrite combine_nth by auto. reflexivity.
Qed.

Lemma existsb_eqb_In i l : existsb (Nat.eqb i) l = true <-> In i l.
Proof.
  rewrite existsb_exists. split.
  - intros (x & Hx & E). apply Nat.eqb_eq in E; subst; auto.
  - intros H; exists i; split; auto; apply Nat.eqb_refl.
Qed.

(** ** Position of an index in the sorted order *)

Lemma SSorted_nth {A : Type} (Rel : A -> A -> Prop) l d t t' :
  StronglySorted Rel l -> t < t' -> t' < length l -> Rel (nth t l d) (nth t' l d).
Proof.
  revert t t'; induction l as [|a l IH]; simpl; intros t t' Hs Htt' Ht'; [lia|].
  apply StronglySorted_inv in Hs as [Hs Hf].
  destruct t' as [|t']; [lia|].
  destruct t as [|t].
  - rewrite Forall_forall in Hf. apply Hf, nth_In. lia.
  - apply IH; auto; lia.
Qed.

Lemma filter_all_false {A : Type} (f : A -> bool) l :
  (forall x, In x l -> f x = false) -> filter f l = [].
Proof.
  induction l as [|a l IH]; simpl; intros H; [reflexivity|].
  rewrite (H a (or_introl eq_refl)). apply IH; auto.
Qed.

Lemma filter_before_firstn v l t :
  StronglySorted (before_rel v) l -> t < length l ->
  filter (fun j => sort_before v j (nth t l 0)) l = firstn t l.
Proof.
  revert t; induction l as [|a l IH]; simpl; intros t Hs Ht; [lia|].
  apply StronglySorted_inv in Hs as [Hs Hf]. rewrite Forall_forall in Hf.
  destruct t as [|t].
  - rewrite sort_before_irrefl. apply filter_all_false.
    intros x Hx. apply sort_before_asym, Hf; auto.
  - rewrite (Hf (nth t l 0)) by (apply nth_In; lia).
    simpl firstn. f_equal. apply IH; auto; lia.
Qed.

Lemma mass_before_pos v t :
  t < length v ->
  mass_before v (nth t (sort_indices v) 0) = sumR (firstn t (map (prob v) (sort_indices v))).
Proof.
  intros Ht. unfold mass_before. rewrite firstn_map.
  apply sumR_perm, Permutation_map.
  rewrite <- (filter_before_firstn v (sort_indices v) t (sort_indices_sorted v))
    by (rewrite sort_indices_length; auto).
  apply Permutation_filter_bool. symmetry; apply sort_indices_perm.
Qed.

Lemma length_top_p_step v p : length (top_p_step v p) = length v.
Proof.
  unfold top_p_step. destruct (Rlt_dec 0 p); [|reflexivity].
  unfold torch_sort; cbv beta iota zeta. apply length_index_fill.
Qed.

(** The top-p step removes exactly the entries whose sorted predecessors
    carry more probability than [top_p]. *)
Lemma top_p_step_at v p i :
  (0 < p)%R -> i < length v ->
  at_ (top_p_step v p) i = if Rlt_dec p (mass_before v i) then NInf else at_ v i.
Proof.
  intros Hp Hi. unfold top_p_step. destruct (Rlt_dec 0 p) as [_|]; [|lra].
  unfold torch_sort; cbv beta iota zeta.
  rewrite softmax_sorted, at_index_fill by auto. unfold filter_value.
  assert (Hin : In i (sort_indices v)) by (apply sort_indices_In; auto).
  destruct (In_nth _ _ 0 Hin) as (t & Ht & Hti).
  rewrite sort_indices_length in Ht.
  replace (mass_before v i) with (sumR (firstn t (map (prob v) (sort_indices v))))
    by (rewrite <- Hti; symmetry; apply mass_before_pos; auto).
  set (sidx := sort_indices v) in *.
  set (probs := map (prob v) sidx).
  set (m := map (fun c => if Rlt_dec p c then true else false) (cumsum probs)).
  assert (Hlen : length m = length v).
  { unfold m, probs, cumsum. rewrite length_map, length_cumsum_from, length_map.
    apply sort_indices_length. }
  assert (Hmask : nth t (shift_right m) false =
                  if Rlt_dec p (sumR (firstn t probs)) then true else false).
  { rewrite nth_shift_right by lia. destruct t as [|t].
    - simpl. destruct (Rlt_dec p 0); [lra|reflexivity].
    - unfold m. rewrite nth_map_lt with (d' := 0%R)
        by (unfold cumsum; rewrite length_cumsum_from; unfold probs; rewrite length_map;
            unfold sidx; rewrite sort_indices_length; lia).
      unfold cumsum. rewrite nth_cumsum_from
        by (unfold probs; rewrite length_map; unfold sidx; rewrite sort_indices_length; lia).
      replace (0 + sumR (firstn (S t) probs))%R with (sumR (firstn (S t) probs)) by lra.
      reflexivity. }
  assert (Hiff : existsb (Nat.eqb i) (map fst (filter snd (combine sidx (shift_right m)))) = true
                 <-> nth t (shift_right m) false = true).
  { rewrite existsb_eqb_In, In_fst_filter_snd. split.
    - intros (t' & H1 & H2 & H3 & H4).
      assert (t' = t) as ->; auto.
      apply (proj1 (NoDup_nth sidx 0) (sort_indices_NoDup v)); auto; [|congruence].
      unfold sidx; rewrite sort_indices_length; lia.
    - intros H. exists t. repeat split; auto.
      + unfold sidx; rewrite sort_indices_length; lia.
      + unfold shift_right. destruct m as [|b m']; simpl in Hlen |- *; [lia|].
        pose proof (app_removelast_last false (l := b :: m') ltac:(discriminate)) as E.
        apply (f_equal (@length bool)) in E. rewrite length_app in E. simpl in E. lia. }
  rewrite Hmask in Hiff.
  destruct (existsb (Nat.eqb i) _), (Rlt_dec p (sumR (firstn t probs)));
    try reflexivity; exfalso; destruct Hiff as [H1 H2].
  - discriminate (H1 eq_refl).
  - discriminate (H2 eq_refl).
Qed.

Lemma top_p_step_at_cases v p i :
  at_ (top_p_step v p) i = at_ v i \/ at_ (top_p_step v p) i = NInf.
Proof.
  destruct (Rlt_dec 0 p) as [Hp|Hp].
  - destruct (Nat.lt_ge_cases i (length v)) as [Hi|Hi].
    + rewrite top_p_step_at by auto. destruct (Rlt_dec _ _); auto.
    + right. unfold at_. apply nth_overflow. rewrite length_top_p_step; auto.
  - left. unfold top_p_step. destruct (Rlt_dec 0 p); [lra|reflexivity].
Qed.

(** ** The top-k step *)

Lemma sort_before_le v a b :
  sort_before v a b = true -> ER_ltb (at_ v a) (at_ v b) = false.
Proof.
  rewrite sort_before_lex. unfold lex_before.
  destruct (ER_ltb (at_ v b) (at_ v a)) eqn:E; simpl.
  - intros _. apply ER_ltb_asym; auto.
  - destruct (ER_ltb (at_ v a) (at_ v b)); simpl; auto.
Qed.

Lemma length_top_k_step v k : length (top_k_step v k) = length v.
Proof.
  unfold top_k_step. destruct (0 <? _)%Z; [|reflexivity].
  apply length_masked_fill. apply length_map.
Qed.

Lemma top_k_step_noop v k :
  (Z.min k (Z.of_nat (length v)) <= 0)%Z -> top_k_step v k = v.
Proof.
  intros H. unfold top_k_step. destruct (Z.ltb_spec 0 (Z.min k (Z.of_nat (length v)))); [lia|reflexivity].
Qed.

(** The threshold [torch.topk(logits, top_k)[0][..., -1]]. *)
Lemma top_k_step_at v k i :
  (0 < Z.min k (Z.of_nat (length v)))%Z -> i < length v ->
  at_ (top_k_step v k) i =
  if ER_ltb (at_ v i) (nth (Z.to_nat (Z.min k (Z.of_nat (length v))) - 1) (fst (torch_sort v)) NInf)
  then NInf else at_ v i.
Proof.
  intros Hk Hi. unfold top_k_step. destruct (Z.ltb_spec 0 (Z.min k (Z.of_nat (length v)))); [|lia].
  rewrite at_masked_fill by (rewrite ?length_map; auto).
  rewrite nth_map_lt with (d' := NInf) by auto. reflexivity.
Qed.

(** Whatever [top_k] is, the top-k step compares every entry with the
    value of some index [j] (past the end when nothing is removed). *)
Lemma top_k_step_thr v k :
  exists j, (j < length v -> (0 < Z.min k (Z.of_nat (length v)))%Z) /\
  forall i, at_ (top_k_step v k) i = if ER_ltb (at_ v i) (at_ v j) then NInf else at_ v i.
Proof.
  destruct (Z.ltb_spec 0 (Z.min k (Z.of_nat (length v)))) as [Hk|Hk].
  - set (K := Z.to_nat (Z.min k (Z.of_nat (length v)))).
    assert (HK : K - 1 < length v) by (unfold K; lia).
    exists (nth (K - 1) (sort_indices v) 0). split; [auto|]. intros i.
    destruct (Nat.lt_ge_cases i (length v)) as [Hi|Hi].
    + rewrite top_k_step_at by auto. fold K. unfold torch_sort; simpl fst.
      rewrite nth_map_lt with (d' := 0) by (rewrite sort_indices_length; auto).
      reflexivity.
    + assert (E1 : at_ v i = NInf) by (apply nth_overflow; auto).
      assert (E2 : at_ (top_k_step v k) i = NInf)
        by (apply nth_overflow; rewrite length_top_k_step; auto).
      rewrite E1, E2. destruct (ER_ltb _ _); reflexivity.
  - exists (length v). split; [intros; lia|]. intros i. rewrite top_k_step_noop by auto.
    assert (E : at_ v (length v) = NInf) by (apply nth_overflow; lia).
    rewrite E, ER_ltb_NInf. reflexivity.
Qed.

(** Entries that survive top-k keep their predecessors in the sorted order. *)
Lemma sort_before_after_top_k v w thr i j :
  (forall x, at_ w x = if ER_ltb (at_ v x) thr then NInf else at_ v x) ->
  ER_ltb (at_ v i) thr = false ->
  sort_before w j i = sort_before v j i.
Proof.
  intros Hw Hi. rewrite !sort_before_lex, !Hw, Hi.
  destruct (ER_ltb (at_ v j) thr) eqn:Hj; [|reflexivity].
  destruct (ER_ltb_split _ (at_ v i) _ Hj) as [Hji|Hit]; [|congruence].
  assert (Hn : ER_ltb NInf (at_ v i) = true)
    by (destruct (at_ v j), (at_ v i); simpl in *; auto; discriminate).
  unfold lex_before. rewrite ER_ltb_NInf, (ER_ltb_asym _ _ Hji), Hji, Hn. reflexivity.
Qed.

Lemma sumR_div {A : Type} (f : A -> R) (z : R) (l : list A) :
  sumR (map (fun x => (f x / z)%R) l) = (sumR (map f l) / z)%R.
Proof. induction l as [|a l IH]; simpl; [unfold Rdiv; ring|]. rewrite IH. unfold Rdiv; ring. Qed.

Lemma sumR_exp_at v : sumR (map ER_exp v) = sumR (map (fun j => ER_exp (at_ v j)) (seq 0 (length v))).
Proof. rewrite <- (map_at_seq v) at 1. rewrite map_map. reflexivity. Qed.

Lemma sumR_exp_pos v i :
  i < length v -> is_fin (at_ v i) = true -> (0 < sumR (map ER_exp v))%R.
Proof.
  intros Hi Hf.
  assert (H : (ER_exp (at_ v i) <= sumR (map ER_exp v))%R).
  { assert (E : nth i (map ER_exp v) 0%R = ER_exp (at_ v i))
      by (unfold at_; apply nth_map_lt; auto).
    rewrite <- E. apply sumR_ge_elem; [|rewrite length_map; auto].
    intros x Hx. apply in_map_iff in Hx as (y & <- & _). apply ER_exp_nonneg. }
  destruct (at_ v i) eqn:E; [|discriminate]. simpl in H. pose proof (exp_pos r). lra.
Qed.

Lemma prob_nonneg v j : (0 <= sumR (map ER_exp v))%R -> (0 <= prob v j)%R.
Proof.
  intros Hz. unfold prob. destruct (Req_dec (sumR (map ER_exp v)) 0) as [->|Hne].
  - unfold Rdiv. rewrite Rinv_0. lra.
  - unfold Rdiv. apply Rmult_le_pos; [apply ER_exp_nonneg|]. left; apply Rinv_0_lt_compat; lra.
Qed.

Lemma sumR_exp_nonneg v : (0 <= sumR (map ER_exp v))%R.
Proof. apply sumR_nonneg. intros; apply ER_exp_nonneg. Qed.

(** The top-k step only lowers the normaliser of the softmax. *)
Lemma sumR_exp_top_k v w thr :
  length w = length v ->
  (forall x, at_ w x = if ER_ltb (at_ v x) thr then NInf else at_ v x) ->
  (sumR (map ER_exp w) <= sumR (map ER_exp v))%R.
Proof.
  intros Hl Hw. rewrite (sumR_exp_at w), (sumR_exp_at v), Hl.
  apply sumR_le. intros x _. rewrite Hw. destruct (ER_ltb _ _); simpl; [apply ER_exp_nonneg|lra].
Qed.

(** After top-k, the mass before a surviving entry can only grow. *)
Lemma mass_before_top_k v w thr i :
  length w = length v ->
  (forall x, at_ w x = if ER_ltb (at_ v x) thr then NInf else at_ v x) ->
  i < length v -> ER_ltb (at_ v i) thr = false -> is_fin (at_ v i) = true ->
  (mass_before v i <= mass_before w i)%R.
Proof.
  intros Hl Hw Hi Hit Hfin. unfold mass_before. rewrite Hl.
  rewrite (filter_ext_in (fun j => sort_before w j i) (fun j => sort_before v j i))
    by (intros; eapply sort_before_after_top_k; eauto).
  apply sumR_le. intros j Hj. apply filter_In in Hj as [_ Hj].
  apply sort_before_le in Hj.
  assert (Hjt : ER_ltb (at_ v j) thr = false).
  { destruct (ER_ltb (at_ v j) thr) eqn:E; [|reflexivity].
    destruct (ER_ltb_split _ (at_ v i) _ E); congruence. }
  assert (Hzw : (0 < sumR (map ER_exp w))%R).
  { apply (sumR_exp_pos w i); [lia|]. rewrite Hw, Hit; auto. }
  pose proof (sumR_exp_top_k v w thr Hl Hw).
  unfold prob. rewrite Hw, Hjt. unfold Rdiv.
  apply Rmult_le_compat_l; [apply ER_exp_nonneg|].
  apply Rinv_le_contravar; auto.
Qed.

Lemma In_survivors out i :
  In i (survivors out) <-> i < length out /\ is_fin (at_ out i) = true.
Proof.
  unfold survivors. rewrite filter_In, in_seq. split; intros [H1 H2]; split; auto; lia.
Qed.

Lemma top_p_step_nonpos v p : ~ (0 < p)%R -> top_p_step v p = v.
Proof. intros Hp. unfold top_p_step. destruct (Rlt_dec 0 p); [contradiction|reflexivity]. Qed.

Lemma sorted_head_first v j :
  0 < length v -> sort_before v j (nth 0 (sort_indices v) 0) = false.
Proof.
  intros Hn.
  pose proof (filter_before_firstn v (sort_indices v) 0 (sort_indices_sorted v)
                ltac:(rewrite sort_indices_length; auto)) as E.
  simpl firstn in E.
  destruct (Nat.lt_ge_cases j (length v)) as [Hj|Hj].
  - destruct (sort_before v j _) eqn:B; [|reflexivity].
    assert (Hin : In j (filter (fun j => sort_before v j (nth 0 (sort_indices v) 0)) (sort_indices v)))
      by (apply filter_In; split; auto; apply sort_indices_In; auto).
    rewrite E in Hin. destruct Hin.
  - rewrite sort_before_lex. unfold lex_before.
    assert (Ej : at_ v j = NInf) by (apply nth_overflow; auto).
    assert (Hh : nth 0 (sort_indices v) 0 < length v)
      by (apply sort_indices_In, nth_In; rewrite sort_indices_length; auto).
    rewrite Ej, ER_ltb_NInf, (proj2 (Nat.ltb_ge j _)) by lia.
    rewrite andb_false_r. reflexivity.
Qed.

(** ** Claims on [top_k_top_p_filtering] *)

(** C7: with [top_k = 0] and [top_p = 0.0] the logits are returned
    unchanged, element for element. *)
Theorem top_k_top_p_filtering_noop (logits : list ER) :
  top_k_top_p_filtering logits 0 0 = logits.
Proof.
  unfold top_k_top_p_filtering. rewrite top_k_step_noop by lia.
  apply top_p_step_nonpos. lra.
Qed.

(** C8: every entry that survives top-k followed by top-p also survives
    top-p alone on the same logits (for every [top_k] and every [top_p]). *)
Theorem top_k_then_top_p_subset (logits : list ER) (top_k : Z) (top_p : R) :
  incl (survivors (top_k_top_p_filtering logits top_k top_p))
       (survivors (top_k_top_p_filtering logits 0 top_p)).
Proof.
  intros i Hi. apply In_survivors in Hi as [Hl Hf].
  unfold top_k_top_p_filtering in *.
  rewrite length_top_p_step, length_top_k_step in Hl.
  rewrite (top_k_step_noop logits 0) by lia.
  destruct (top_k_step_thr logits top_k) as (j & _ & Hw).
  set (w := top_k_step logits top_k) in *.
  apply In_survivors; split; [rewrite length_top_p_step; auto|].
  destruct (Rlt_dec 0 top_p) as [Hp|Hp].
  - rewrite top_p_step_at in Hf by (auto; unfold w; rewrite length_top_k_step; auto).
    rewrite top_p_step_at by auto.
    destruct (Rlt_dec top_p (mass_before w i)); [discriminate|].
    rewrite Hw in Hf. destruct (ER_ltb (at_ logits i) (at_ logits j)) eqn:Ht; [discriminate|].
    destruct (Rlt_dec top_p (mass_before logits i)); [|auto].
    pose proof (mass_before_top_k logits w (at_ logits j) i (length_top_k_step _ _) Hw Hl Ht Hf).
    lra.
  - rewrite top_p_step_nonpos in Hf |- * by auto.
    rewrite Hw in Hf. destruct (ER_ltb _ _); [discriminate|auto].
Qed.

(** C10: on a non-empty vector some entry holding the maximum value is
    left unchanged by the combined filter, for every [top_k] and [top_p]. *)
Theorem top_k_top_p_keeps_max (logits : list ER) (top_k : Z) (top_p : R) :
  0 < length logits ->
  exists i, i < length logits /\
    (forall j, j < length logits -> ER_ltb (at_ logits i) (at_ logits j) = false) /\
    at_ (top_k_top_p_filtering logits top_k top_p) i = at_ logits i.
Proof.
  intros Hn.
  set (i0 := nth 0 (sort_indices logits) 0).
  assert (Hi0 : i0 < length logits)
    by (apply sort_indices_In, nth_In; rewrite sort_indices_length; auto).
  assert (Hmax : forall j, ER_ltb (at_ logits i0) (at_ logits j) = false).
  { intros j. pose proof (sorted_head_first logits j Hn) as H.
    rewrite sort_before_lex in H. unfold lex_before in H.
    apply orb_false_iff in H as [H _]. exact H. }
  exists i0. split; [auto|]. split; [intros; apply Hmax|].
  destruct (top_k_step_thr logits top_k) as (j & _ & Hw).
  set (w := top_k_step logits top_k) in *.
  assert (Hw0 : at_ w i0 = at_ logits i0) by (rewrite Hw, Hmax; reflexivity).
  unfold top_k_top_p_filtering. fold w.
  destruct (Rlt_dec 0 top_p) as [Hp|Hp].
  - rewrite top_p_step_at by (auto; unfold w; rewrite length_top_k_step; auto).
    assert (Hm : mass_before w i0 = 0%R).
    { unfold mass_before.
      replace (length w) with (length logits) by (symmetry; apply length_top_k_step).
      rewrite (filter_ext_in (fun j' => sort_before w j' i0) (fun j' => sort_before logits j' i0))
        by (intros; eapply sort_before_after_top_k; eauto).
      rewrite filter_all_false; [reflexivity|].
      intros x _. apply sorted_head_first; auto. }
    rewrite Hm. destruct (Rlt_dec top_p 0); [lra|auto].
  - rewrite top_p_step_nonpos by auto. auto.
Qed.

(** ** Prefix sums in the sorted order *)

Lemma sumR_firstn_S (l : list R) t :
  t < length l -> sumR (firstn (S t) l) = (sumR (firstn t l) + nth t l 0)%R.
Proof.
  revert t; induction l as [|a l IH]; simpl; intros t Ht; [lia|].
  destruct t as [|t]; [simpl; lra|].
  change (firstn (S (S t)) (a :: l)) with (a :: firstn (S t) l).
  change (firstn (S t) (a :: l)) with (a :: firstn t l).
  rewrite !sumR_cons, IH by lia. simpl nth. lra.
Qed.

Lemma sumR_firstn_mono (l : list R) t t' :
  (forall x, In x l -> 0 <= x)%R -> t <= t' -> (sumR (firstn t l) <= sumR (firstn t' l))%R.
Proof.
  revert t t'; induction l as [|a l IH]; intros t t' Hnn Htt'.
  - rewrite !firstn_nil. lra.
  - destruct t as [|t]; destruct t' as [|t']; simpl; try lia; try lra.
    + pose proof (Hnn a (or_introl eq_refl)).
      assert (0 <= sumR (firstn t' l))%R.
      { rewrite <- (map_id (firstn t' l)). apply sumR_nonneg.
        intros x Hx. apply Hnn. right. rewrite <- (firstn_skipn t' l). apply in_or_app; auto. }
      lra.
    + pose proof (IH t t' (fun x Hx => Hnn x (or_intror Hx)) ltac:(lia)). lra.
Qed.

(** A step of a sequence that starts at most [p] and ends above [p]. *)
Lemma crossing (f : nat -> R) (p : R) n :
  (f O <= p)%R -> (p < f n)%R -> exists J, J < n /\ (f J <= p)%R /\ (p < f (S J))%R.
Proof.
  induction n as [|n IH]; intros H0 Hn; [lra|].
  destruct (Rle_lt_dec (f n) p) as [Hle|Hlt].
  - exists n. repeat split; auto.
  - destruct (IH H0 Hlt) as (J & HJ & H1 & H2). exists J. repeat split; auto.
Qed.

Lemma filter_prefix {A : Type} (g h : A -> bool) (l : list A) m d :
  (forall t, t < length l -> g (nth t l d) = if t <? m then h (nth t l d) else false) ->
  filter g l = filter h (firstn m l).
Proof.
  revert m; induction l as [|a l IH]; intros m H; [rewrite firstn_nil; reflexivity|].
  destruct m as [|m].
  - simpl firstn. apply filter_all_false. intros x Hx.
    destruct (In_nth _ _ d Hx) as (t & Ht & <-).
    specialize (H t Ht). rewrite H. reflexivity.
  - simpl firstn. simpl filter.
    pose proof (H 0 ltac:(simpl; lia)) as H0. simpl in H0. rewrite H0.
    rewrite (IH m); [reflexivity|].
    intros t Ht. specialize (H (S t) ltac:(simpl; lia)). simpl in H. exact H.
Qed.

Lemma sumR_prob_sorted v :
  (0 < sumR (map ER_exp v))%R -> sumR (map (prob v) (sort_indices v)) = 1%R.
Proof.
  intros Hz.
  rewrite (sumR_perm _ (map (prob v) (seq 0 (length v))))
    by (apply Permutation_map, sort_indices_perm).
  unfold prob. rewrite sumR_div, <- sumR_exp_at. field. lra.
Qed.

Lemma prob_pos_fin v x : (0 < prob v x)%R -> is_fin (at_ v x) = true.
Proof.
  unfold prob. destruct (at_ v x); simpl; auto. unfold Rdiv. rewrite Rmult_0_l. lra.
Qed.

Lemma ER_ltb_fin_r x y : ER_ltb x y = true -> is_fin y = true.
Proof. destruct x, y; simpl; auto. Qed.

Lemma sorted_position v x : x < length v -> exists t, t < length v /\ nth t (sort_indices v) 0 = x.
Proof.
  intros Hx. apply sort_indices_In in Hx. destruct (In_nth _ _ 0 Hx) as (t & Ht & E).
  rewrite sort_indices_length in Ht. eauto.
Qed.

Lemma sorted_position_le v t t' :
  t' < length v -> t < length v ->
  ER_ltb (at_ v (nth t (sort_indices v) 0)) (at_ v (nth t' (sort_indices v) 0)) = true ->
  t' < t.
Proof.
  intros Ht' Ht H.
  destruct (Nat.lt_total t' t) as [|[<-|Hlt]]; auto.
  - rewrite ER_ltb_irrefl in H. discriminate.
  - pose proof (SSorted_nth _ _ 0 t t' (sort_indices_sorted v) Hlt
                  ltac:(rewrite sort_indices_length; auto)) as Hb.
    apply sort_before_le in Hb. congruence.
Qed.

(** Position form of the top-p step. *)
Lemma top_p_step_sorted v p t :
  (0 < p)%R -> t < length v ->
  at_ (top_p_step v p) (nth t (sort_indices v) 0) =
  if Rlt_dec p (sumR (firstn t (map (prob v) (sort_indices v)))) then NInf
  else at_ v (nth t (sort_indices v) 0).
Proof.
  intros Hp Ht.
  rewrite top_p_step_at by (auto; apply sort_indices_In, nth_In; rewrite sort_indices_length; auto).
  rewrite mass_before_pos by auto. reflexivity.
Qed.

(** C3 (amended): for logits with a finite entry and [0 < top_p < 1],
    top-p alone keeps a non-empty set of entries; their probability sum
    exceeds [top_p]; the set is closed upwards in the value order; and
    removing a lowest-valued survivor leaves a sum of at most [top_p]
    (which may equal [top_p]). *)
Theorem top_p_nucleus (logits : list ER) (top_p : R) :
  (exists f, f < length logits /\ is_fin (at_ logits f) = true) ->
  (0 < top_p < 1)%R ->
  survivors (top_k_top_p_filtering logits 0 top_p) <> [] /\
  (top_p < sumR (map (prob logits) (survivors (top_k_top_p_filtering logits 0 top_p))))%R /\
  (forall i j, In i (survivors (top_k_top_p_filtering logits 0 top_p)) -> j < length logits ->
     ER_ltb (at_ logits i) (at_ logits j) = true ->
     In j (survivors (top_k_top_p_filtering logits 0 top_p))) /\
  (forall m, In m (survivors (top_k_top_p_filtering logits 0 top_p)) ->
     (forall i, In i (survivors (top_k_top_p_filtering logits 0 top_p)) ->
        ER_ltb (at_ logits i) (at_ logits m) = false) ->
     (sumR (map (prob logits) (survivors (top_k_top_p_filtering logits 0 top_p)))
        - prob logits m <= top_p)%R).
Proof.
  intros (f & Hf & Hfin) [Hp0 Hp1].
  unfold top_k_top_p_filtering. rewrite top_k_step_noop by lia.
  set (out := top_p_step logits top_p).
  set (sidx := sort_indices logits).
  set (probs := map (prob logits) sidx).
  set (pre := fun t => sumR (firstn t probs)).
  assert (Hz : (0 < sumR (map ER_exp logits))%R) by (eapply sumR_exp_pos; eauto).
  assert (Hlp : length probs = length logits)
    by (unfold probs, sidx; rewrite length_map, sort_indices_length; auto).
  assert (Hnn : forall x, In x probs -> (0 <= x)%R).
  { intros x Hx. unfold probs in Hx. apply in_map_iff in Hx as (y & <- & _).
    apply prob_nonneg; lra. }
  assert (Hpren : pre (length logits) = 1%R).
  { unfold pre. rewrite firstn_all2 by lia. apply sumR_prob_sorted; auto. }
  destruct (crossing pre top_p (length logits)) as (J & HJ & HJ1 & HJ2);
    [unfold pre; simpl; lra | rewrite Hpren; lra |].
  assert (Hmono : forall t t', t <= t' -> (pre t <= pre t')%R)
    by (intros; apply sumR_firstn_mono; auto).
  assert (Hout : forall t, t < length logits ->
     at_ out (nth t sidx 0) = if t <? S J then at_ logits (nth t sidx 0) else NInf).
  { intros t Ht. unfold out, sidx. rewrite top_p_step_sorted by auto. fold sidx probs.
    change (sumR (firstn t probs)) with (pre t).
    destruct (Nat.ltb_spec t (S J)).
    - destruct (Rlt_dec top_p (pre t)); [|reflexivity].
      pose proof (Hmono t J ltac:(lia)). lra.
    - destruct (Rlt_dec top_p (pre t)); [reflexivity|].
      pose proof (Hmono (S J) t ltac:(lia)). lra. }
  assert (Hlout : length out = length logits) by apply length_top_p_step.
  assert (Hsum : sumR (map (prob logits) (survivors out)) = pre (S J)).
  { unfold survivors. rewrite Hlout.
    rewrite (sumR_perm _ (map (prob logits) (filter (fun i => is_fin (at_ out i)) sidx)))
      by (apply Permutation_map, Permutation_filter_bool; symmetry; apply sort_indices_perm).
    rewrite (filter_prefix _ (fun i => is_fin (at_ logits i)) sidx (S J) 0).
    - rewrite sumR_filter_zero.
      + unfold pre, probs. rewrite firstn_map. reflexivity.
      + intros x _ Hx. unfold prob. destruct (at_ logits x); [discriminate|].
        simpl. unfold Rdiv; ring.
    - intros t Ht. unfold sidx in Ht; rewrite sort_indices_length in Ht.
      rewrite Hout by auto. destruct (t <? S J); reflexivity. }
  set (sJ := nth J sidx 0).
  assert (HsJ_prob : prob logits sJ = (pre (S J) - pre J)%R).
  { unfold pre. rewrite sumR_firstn_S by lia. unfold probs, sJ.
    rewrite nth_map_lt with (d' := 0) by (unfold sidx; rewrite sort_indices_length; lia).
    lra. }
  assert (HsJ : In sJ (survivors out)).
  { apply In_survivors. split.
    - rewrite Hlout. unfold sJ, sidx. apply sort_indices_In, nth_In.
      rewrite sort_indices_length; lia.
    - unfold sJ. rewrite Hout by auto. rewrite (proj2 (Nat.ltb_lt J (S J))) by lia.
      apply prob_pos_fin. fold sJ. lra. }
  assert (Hpos : forall x, In x (survivors out) ->
            exists t, t <= J /\ nth t sidx 0 = x /\ is_fin (at_ logits x) = true).
  { intros x Hx. apply In_survivors in Hx as [Hx Hfx]. rewrite Hlout in Hx.
    destruct (sorted_position logits x Hx) as (t & Ht & Etx). fold sidx in Etx.
    rewrite <- Etx in Hfx. rewrite Hout in Hfx by auto.
    destruct (Nat.ltb_spec t (S J)); [|discriminate].
    exists t. repeat split; [lia|auto|rewrite <- Etx; auto]. }
  split; [|split; [|split]].
  - intros E. rewrite E in HsJ. destruct HsJ.
  - rewrite Hsum. lra.
  - intros i j Hi Hj Hij.
    destruct (Hpos i Hi) as (ti & Hti & Ei & _).
    destruct (sorted_position logits j Hj) as (tj & Htj & Ej). fold sidx in Ej.
    assert (tj < ti).
    { apply (sorted_position_le logits ti tj); auto; [lia|]. fold sidx. rewrite Ei, Ej. auto. }
    apply In_survivors. rewrite Hlout. split; auto.
    rewrite <- Ej, Hout by auto. rewrite (proj2 (Nat.ltb_lt tj (S J))) by lia. rewrite Ej.
    eapply ER_ltb_fin_r; eauto.
  - intros m Hm Hlow. rewrite Hsum.
    destruct (Hpos m Hm) as (tm & Htm & Em & _).
    assert (Hv : at_ logits m = at_ logits sJ).
    { apply ER_ltb_antisym.
      - destruct (Nat.lt_ge_cases tm J) as [Hlt|Hge].
        + rewrite <- Em. unfold sJ. apply sort_before_le.
          apply (SSorted_nth _ _ 0 tm J (sort_indices_sorted logits) Hlt).
          rewrite sort_indices_length; auto.
        + assert (tm = J) as -> by lia. rewrite <- Em. apply ER_ltb_irrefl.
      - apply Hlow; auto. }
    assert (prob logits m = prob logits sJ) by (unfold prob; rewrite Hv; reflexivity).
    lra.
Qed.

Lemma sort_before_ties j i :
  j < 2 -> i < 2 -> sort_before [Fin 0; Fin 0] j i = Nat.ltb j i.
Proof.
  intros Hj Hi. unfold sort_before, at_.
  destruct j as [|[|j]], i as [|[|i]]; try lia; simpl;
    destruct (Rlt_dec 0 0); try lra; simpl; try reflexivity.
Qed.

Lemma prob_ties i : i < 2 -> prob [Fin 0; Fin 0] i = (1/2)%R.
Proof.
  intros Hi. unfold prob, at_.
  destruct i as [|[|i]]; [| |lia]; simpl; rewrite exp_0; field.
Qed.

(** C3 counterexample: with two equal logits and [top_p = 0.5] both
    entries survive, and removing the lowest-ranked one leaves a sum of
    exactly [0.5], which is not below [top_p]. *)
Lemma top_p_nucleus_tie_counterexample :
  survivors (top_k_top_p_filtering [Fin 0; Fin 0] 0 (1/2)) = [0; 1] /\
  ~ (sumR (map (prob [Fin 0; Fin 0]) (survivors (top_k_top_p_filtering [Fin 0; Fin 0] 0 (1/2))))
       - prob [Fin 0; Fin 0] 1 < 1/2)%R.
Proof.
  assert (Hm : forall i, i < 2 -> mass_before [Fin 0; Fin 0] i =
                    sumR (map (prob [Fin 0; Fin 0]) (filter (fun j => Nat.ltb j i) [0; 1]))).
  { intros i Hi. unfold mass_before.
    rewrite (filter_ext_in (fun j => sort_before [Fin 0; Fin 0] j i) (fun j => Nat.ltb j i))
      by (intros j Hj; apply in_seq in Hj; apply sort_before_ties; simpl in Hj; lia).
    reflexivity. }
  assert (Hsurv : survivors (top_k_top_p_filtering [Fin 0; Fin 0] 0 (1/2)) = [0; 1]).
  { unfold top_k_top_p_filtering. rewrite top_k_step_noop by (simpl; lia).
    unfold survivors. rewrite length_top_p_step. cbn [length seq filter].
    rewrite !top_p_step_at by (simpl; lra || lia).
    rewrite !Hm by lia. cbn [filter Nat.ltb Nat.leb map sumR fold_right].
    rewrite (prob_ties 0) by lia.
    destruct (Rlt_dec (1/2) 0); [lra|].
    destruct (Rlt_dec (1/2) (1/2 + 0)); [lra|]. reflexivity. }
  split; [exact Hsurv|]. rewrite Hsurv. cbn [map sumR fold_right].
  rewrite !prob_ties by lia. lra.
Qed.

(** Witness of C3 on two equal logits. *)
Lemma top_p_nucleus_witness :
  survivors (top_k_top_p_filtering [Fin 0; Fin 0] 0 (1/2)) <> [].
Proof.
  refine (proj1 (top_p_nucleus [Fin 0; Fin 0] (1/2) _ _)).
  - exists 0. split; [simpl; lia | reflexivity].
  - lra.
Defined.

(** ** Counting the survivors of top-k *)

Lemma SSorted_weaken {A : Type} (R1 R2 : A -> A -> Prop) (l : list A) :
  (forall a b, R1 a b -> R2 a b) -> StronglySorted R1 l -> StronglySorted R2 l.
Proof.
  intros H. induction 1; constructor; auto.
  eapply Forall_impl; [|eassumption]. auto.
Qed.

Lemma filter_firstn_min {A : Type} (f : A -> bool) (l : list A) k :
  StronglySorted (fun a b => f a = false -> f b = false) l ->
  Nat.min k (length (filter f l)) <= length (filter f (firstn k l)).
Proof.
  revert k; induction l as [|a l IH]; intros k Hs.
  - rewrite firstn_nil. simpl. lia.
  - apply StronglySorted_inv in Hs as [Hs Hf].
    destruct k as [|k]; [simpl; lia|].
    simpl firstn. simpl filter.
    destruct (f a) eqn:Ea.
    + simpl length. specialize (IH k Hs). lia.
    + rewrite (filter_all_false f l); [simpl; lia|].
      intros x Hx. rewrite Forall_forall in Hf. apply (Hf x Hx eq_refl).
Qed.

Lemma length_survivors_sorted v out :
  length out = length v ->
  length (survivors out) = length (filter (fun i => is_fin (at_ out i)) (sort_indices v)).
Proof.
  intros Hl. unfold survivors. rewrite Hl.
  apply Permutation_length, Permutation_filter_bool. symmetry; apply sort_indices_perm.
Qed.

(** C2 (amended): with [0 < top_k <= len(logits)] and [top_p = 0], an
    entry is replaced by the filter value exactly when it is strictly
    below the [top_k]-th largest value, other entries are unchanged, and
    at least [min top_k (number of entries that were not the filter
    value)] entries survive; at least [top_k] when no input entry is the
    filter value. *)
Theorem top_k_survivors (logits : list ER) (k : nat) :
  0 < k -> k <= length logits ->
  (forall i, i < length logits ->
     at_ (top_k_top_p_filtering logits (Z.of_nat k) 0) i =
     if ER_ltb (at_ logits i) (nth (k - 1) (fst (torch_sort logits)) NInf)
     then filter_value else at_ logits i) /\
  Nat.min k (length (survivors logits))
    <= length (survivors (top_k_top_p_filtering logits (Z.of_nat k) 0)).
Proof.
  intros Hk Hkn.
  assert (HK : Z.min (Z.of_nat k) (Z.of_nat (length logits)) = Z.of_nat k) by lia.
  unfold top_k_top_p_filtering. rewrite top_p_step_nonpos by lra.
  assert (Hat : forall i, i < length logits ->
     at_ (top_k_step logits (Z.of_nat k)) i =
     if ER_ltb (at_ logits i) (nth (k - 1) (fst (torch_sort logits)) NInf)
     then filter_value else at_ logits i).
  { intros i Hi. rewrite top_k_step_at by lia. rewrite HK, Nat2Z.id. reflexivity. }
  split; [exact Hat|].
  set (sidx := sort_indices logits).
  assert (Hthr : nth (k - 1) (fst (torch_sort logits)) NInf = at_ logits (nth (k - 1) sidx 0)).
  { unfold torch_sort; simpl fst. apply nth_map_lt. unfold sidx; rewrite sort_indices_length; lia. }
  rewrite (length_survivors_sorted logits (top_k_step logits (Z.of_nat k)))
    by apply length_top_k_step.
  rewrite (length_survivors_sorted logits logits) by reflexivity.
  fold sidx.
  rewrite <- (firstn_skipn k sidx) at 2. rewrite filter_app, length_app.
  rewrite (filter_ext_in _ (fun i => is_fin (at_ logits i)) (firstn k sidx)).
  - pose proof (filter_firstn_min (fun i => is_fin (at_ logits i)) sidx k) as H.
    assert (Nat.min k (length (filter (fun i => is_fin (at_ logits i)) sidx))
            <= length (filter (fun i => is_fin (at_ logits i)) (firstn k sidx))); [|lia].
    apply H. eapply SSorted_weaken; [|apply sort_indices_sorted].
    intros a b Hab Ha. apply sort_before_le in Hab.
    destruct (at_ logits a), (at_ logits b); simpl in *; auto; discriminate.
  - intros x Hx.
    destruct (In_nth _ _ 0 Hx) as (t & Ht & Ex).
    rewrite length_firstn in Ht.
    rewrite nth_firstn in Ex. destruct (Nat.ltb_spec t k); [|lia].
    assert (Hxn : x < length logits)
      by (rewrite <- Ex; apply sort_indices_In, nth_In; rewrite sort_indices_length; lia).
    rewrite Hat, Hthr by auto.
    assert (ER_ltb (at_ logits x) (at_ logits (nth (k - 1) sidx 0)) = false) as ->.
    { rewrite <- Ex. destruct (Nat.lt_ge_cases t (k - 1)) as [Hlt|Hge].
      - apply sort_before_le, (SSorted_nth _ _ 0 t (k - 1) (sort_indices_sorted logits) Hlt).
        rewrite sort_indices_length; lia.
      - replace t with (k - 1) by lia. apply ER_ltb_irrefl. }
    reflexivity.
Qed.

(** C2 counterexample: with the entry at index 1 already the filter value
    (as [generate] does for [[UNK]]) and [top_k = 2], only one entry is
    left. *)
Lemma top_k_survivors_counterexample :
  length (survivors (top_k_top_p_filtering [Fin 0; NInf] 2 0)) = 1 /\
  length (survivors (top_k_top_p_filtering [Fin 0; NInf] 2 0)) < 2.
Proof.
  unfold top_k_top_p_filtering. rewrite top_p_step_nonpos by lra.
  split; reflexivity || (vm_compute; lia).
Qed.

(** Witness of C2 at [top_k = 1]. *)
Lemma top_k_survivors_witness :
  Nat.min 1 (length (survivors [Fin 0; NInf]))
    <= length (survivors (top_k_top_p_filtering [Fin 0; NInf] (Z.of_nat 1) 0)).
Proof.
  refine (proj2 (top_k_survivors [Fin 0; NInf] 1 _ _)); simpl; lia.
Defined.

(** Witness of C10 with both filters active: [top_k = 2] removes the
    entry [0] and [top_p = 0.5] is applied to the rest. *)
Lemma top_k_top_p_keeps_max_witness :
  exists i, i < length [Fin 0; Fin 1; Fin 2] /\
    (forall j, j < length [Fin 0; Fin 1; Fin 2] ->
       ER_ltb (at_ [Fin 0; Fin 1; Fin 2] i) (at_ [Fin 0; Fin 1; Fin 2] j) = false) /\
    at_ (top_k_top_p_filtering [Fin 0; Fin 1; Fin 2] 2 (1/2)) i = at_ [Fin 0; Fin 1; Fin 2] i.
Proof.
  apply (top_k_top_p_keeps_max [Fin 0; Fin 1; Fin 2] 2 (1/2)). simpl; lia.
Defined.

(** ** Facts on the pieces of the generation loop *)

Lemma filter_keeps_NInf v k p i :
  at_ v i = NInf -> at_ (top_k_top_p_filtering v k p) i = NInf.
Proof.
  intros Hv. unfold top_k_top_p_filtering.
  destruct (top_k_step_thr v k) as (j & _ & Hj).
  destruct (top_p_step_at_cases (top_k_step v k) p i) as [-> | ->]; [|reflexivity].
  rewrite Hj, Hv. destruct (ER_ltb NInf _); reflexivity.
Qed.

Lemma length_top_k_top_p_filtering v k p :
  length (top_k_top_p_filtering v k p) = length v.
Proof. unfold top_k_top_p_filtering. rewrite length_top_p_step. apply length_top_k_step. Qed.

Lemma softmax_NInf v i :
  i < length v -> at_ v i = NInf -> nth i (softmax v) 0%R = 0%R.
Proof.
  intros Hi Hv. unfold softmax. rewrite (nth_map_lt _ _ _ _ NInf) by auto.
  unfold at_ in Hv. rewrite Hv. simpl. unfold Rdiv. apply Rmult_0_l.
Qed.

Lemma length_set_nth {A : Type} (l : list A) i x : length (set_nth l i x) = length l.
Proof.
  revert i; induction l as [|y l IH]; intros [|i]; simpl; auto.
Qed.

Lemma nth_set_nth_eq {A : Type} (l : list A) i x d :
  i < length l -> nth i (set_nth l i x) d = x.
Proof.
  revert i; induction l as [|y l IH]; intros [|i] Hi; simpl in *; try lia; auto.
  apply IH; lia.
Qed.

Lemma nth_set_nth_neq {A : Type} (l : list A) i j x d :
  i <> j -> nth j (set_nth l i x) d = nth j l d.
Proof.
  revert i j; induction l as [|y l IH]; intros [|i] [|j] Hij; simpl; auto; try lia.
Qed.

Lemma py_index_spec n i j :
  py_index n i = Some j -> j < n /\ (Z.of_nat j = i \/ (i < 0)%Z).
Proof.
  unfold py_index.
  destruct (Z.leb_spec 0 i), (Z.ltb_spec i (Z.of_nat n)); simpl;
  [intros E; injection E as <-; split; [|left]; lia| | |];
  destruct (Z.leb_spec (- Z.of_nat n) i), (Z.ltb_spec i 0); simpl;
  try discriminate; intros E; injection E as <-; split; try right; lia.
Qed.

Lemma opt_mapM_py_index n ids :
  Forall (fun i => (0 <= i < Z.of_nat n)%Z) ids ->
  opt_mapM (py_index n) ids = Some (map Z.to_nat ids).
Proof.
  induction 1 as [|i ids Hi _ IH]; simpl; auto.
  unfold py_index at 1.
  destruct (Z.leb_spec 0 i), (Z.ltb_spec i (Z.of_nat n)); simpl; try lia.
  rewrite IH. reflexivity.
Qed.

(** The write-back loop of [penalize]: every listed position receives the
    value gathered from the original vector. *)
Lemma fold_set_nth (l0 : list R) (rp : R) pos acc :
  length acc = length l0 ->
  Forall (fun j => j < length l0) pos ->
  length (fold_left (fun acc (p : nat * R) => set_nth acc (fst p) (snd p))
            (combine pos (map (fun j => (nth j l0 0 / rp)%R) pos)) acc) = length l0 /\
  forall i, i < length l0 ->
    nth i (fold_left (fun acc (p : nat * R) => set_nth acc (fst p) (snd p))
             (combine pos (map (fun j => (nth j l0 0 / rp)%R) pos)) acc) 0%R =
    if existsb (Nat.eqb i) pos then (nth i l0 0 / rp)%R else nth i acc 0%R.
Proof.
  revert acc. induction pos as [|j pos IH]; intros acc Hacc Hpos.
  - simpl. split; auto.
  - inversion Hpos as [|? ? Hj Hpos']; subst. simpl.
    destruct (IH (set_nth acc j (nth j l0 0 / rp)%R)) as [IH1 IH2];
      [rewrite length_set_nth; auto | auto |].
    split; auto. intros i Hi. rewrite IH2 by auto.
    destruct (Nat.eqb_spec i j) as [->|Hne]; simpl.
    + destruct (existsb _ pos); auto. apply nth_set_nth_eq. lia.
    + rewrite nth_set_nth_neq by auto. reflexivity.
Qed.

Lemma first_pos_from_spec k ps i :
  first_pos_from k ps = Some i ->
  (Z.of_nat k <= i < Z.of_nat (k + length ps))%Z /\ (0 < nth (Z.to_nat i - k) ps 0)%R.
Proof.
  revert k. induction ps as [|p ps IH]; intros k; simpl; [discriminate|].
  destruct (Rlt_dec 0 p) as [Hp|Hp].
  - intros E; injection E as <-. rewrite Nat2Z.id, Nat.sub_diag. split; [lia | auto].
  - intros E. destruct (IH (S k) E) as [Hb Hv]. split; [lia|].
    replace (Z.to_nat i - k) with (S (Z.to_nat i - S k)) by lia. exact Hv.
Qed.

(** [first_pos_sampler] returns an index of positive probability. *)
Lemma first_pos_sampler_spec g ps i g' :
  first_pos_sampler g ps = Some (i, g') ->
  (0 <= i < Z.of_nat (length ps))%Z /\ (0 < nth (Z.to_nat i) ps 0)%R.
Proof.
  unfold first_pos_sampler. destruct (first_pos_from 0 ps) eqn:E; [|discriminate].
  intros H; injection H as <- _. apply first_pos_from_spec in E.
  rewrite Nat.sub_0_r in E. simpl in E. exact E.
Qed.

Lemma window_one generated : window generated 1 = generated.
Proof.
  unfold window, py_slice_from. simpl (- (1 - 1))%Z. simpl (0 <? 0)%Z. cbv iota.
  rewrite Z.min_l by lia. reflexivity.
Qed.

(** For [n_ctx >= 2] the window holds at most [n_ctx - 1] tokens. *)
Lemma window_bounded generated n_ctx :
  (2 <= n_ctx)%Z -> (Z.of_nat (length (window generated n_ctx)) <= n_ctx - 1)%Z.
Proof.
  intros Hn. unfold window, py_slice_from.
  destruct (Z.ltb_spec (- (n_ctx - 1)) 0); [|lia].
  rewrite length_skipn. lia.
Qed.

Section DecoderFacts.
Variable Gen : Type.
Variable model : list Z -> option (list R).
Variable sample : Gen -> list R -> option (Z * Gen).
Variables n_ctx unk_id : Z.
Variables temperature top_p repitition_penalty : R.
Variable top_k : Z.

Local Abbreviation step :=
  (gen_step Gen model sample n_ctx unk_id temperature top_p repitition_penalty top_k).
Local Abbreviation loop :=
  (gen_loop Gen model sample n_ctx unk_id temperature top_p repitition_penalty top_k).

(** Each iteration appends the token of one step. *)
Lemma gen_loop_app (P : Z -> Prop) :
  (forall generated g t g', step generated g = Some (t, g') -> P t) ->
  forall fuel generated g out, loop fuel generated g = Some out ->
  exists suf, out = generated ++ suf /\ length suf = fuel /\ Forall P suf.
Proof.
  intros HP fuel. induction fuel as [|fuel IH]; intros generated g out; simpl.
  - intros E; injection E as <-. exists []. rewrite app_nil_r. auto.
  - destruct (step generated g) as [[t g']|] eqn:Es; [|discriminate].
    intros E. destruct (IH _ _ _ E) as (suf & -> & Hl & Hf).
    exists (t :: suf). rewrite <- app_assoc. simpl. split; [reflexivity|].
    split; [lia|]. constructor; eauto.
Qed.

(** C1: with [length = L], [generate] returns the prefix followed by
    exactly [L] tokens (when no call raises). *)
Theorem generate_length context (L : nat) g :
  match generate Gen model sample n_ctx unk_id temperature top_p repitition_penalty top_k
        context (Z.of_nat L) g with
  | Some out => length out = length context + L /\ firstn (length context) out = context
  | None => True
  end.
Proof.
  unfold generate. rewrite Nat2Z.id.
  destruct (loop L context g) as [out|] eqn:E; [|exact I].
  destruct (gen_loop_app (fun _ => True) (fun _ _ _ _ _ => I) L context g out E)
    as (suf & -> & Hl & _).
  rewrite length_app, Hl. split; [reflexivity|].
  rewrite firstn_app, Nat.sub_diag, firstn_O, app_nil_r. apply firstn_all.
Qed.

(** C4 (code bug): with [n_ctx = 1] the slice [generated[0][-0:]] is the
    whole sequence, so the model receives the full sequence instead of
    at most [n_ctx - 1 = 0] tokens. *)
Theorem window_n_ctx_one :
  window [10; 11]%Z 1 = [10; 11]%Z /\
  (Z.of_nat (List.length (window [10; 11]%Z 1)) > 1 - 1)%Z.
Proof. split; [reflexivity | simpl; lia]. Qed.

(** C6: for in-range ids, [penalize] divides the logit of every id that
    occurs in the sequence exactly once, however often it occurs, and
    leaves the other logits unchanged. *)
Theorem penalize_once (logits : list R) (ids : list Z) (rp : R) :
  Forall (fun i => (0 <= i < Z.of_nat (List.length logits))%Z) ids ->
  exists out, penalize logits ids rp = Some out /\
    List.length out = List.length logits /\
    forall i, i < List.length logits ->
      (In (Z.of_nat i) ids -> nth i out 0%R = (nth i logits 0 / rp)%R) /\
      (~ In (Z.of_nat i) ids -> nth i out 0%R = nth i logits 0%R).
Proof.
  intros Hids. unfold penalize. rewrite opt_mapM_py_index by exact Hids.
  destruct (fold_set_nth logits rp (map Z.to_nat ids) logits eq_refl) as [H1 H2].
  { rewrite Forall_map. eapply Forall_impl; [|exact Hids]. intros a Ha; simpl in *.
    apply Nat2Z.inj_lt. rewrite Z2Nat.id; lia. }
  eexists; split; [reflexivity|]. split; [exact H1|].
  intros i Hi. rewrite H2 by exact Hi.
  assert (Hin : In (Z.of_nat i) ids <-> existsb (Nat.eqb i) (map Z.to_nat ids) = true).
  { rewrite existsb_eqb_In, in_map_iff. split.
    - intros H. exists (Z.of_nat i). rewrite Nat2Z.id. auto.
    - intros (x & Hx & Hxi). rewrite Forall_forall in Hids.
      specialize (Hids x Hxi). rewrite <- Hx, Z2Nat.id by lia. exact Hxi. }
  destruct (existsb (Nat.eqb i) (map Z.to_nat ids)).
  - split; [auto | intros H; exfalso; apply H, Hin; reflexivity].
  - split; [intros H; apply Hin in H; discriminate | auto].
Qed.

(** [torch.multinomial] only returns indices of positive probability. *)
Hypothesis sample_spec : forall g ps i g',
  sample g ps = Some (i, g') ->
  (0 <= i < Z.of_nat (List.length ps))%Z /\ (0 < nth (Z.to_nat i) ps 0)%R.

Lemma gen_step_not_unk generated g t g' :
  step generated g = Some (t, g') -> t <> unk_id.
Proof.
  unfold gen_step.
  destruct (model _) as [l1|]; [|discriminate].
  destruct (penalize l1 generated repitition_penalty) as [l2|]; [|discriminate].
  unfold py_setitem.
  destruct (py_index _ unk_id) as [j|] eqn:Ej; [|discriminate].
  apply py_index_spec in Ej. destruct Ej as [Hj Hju].
  rewrite length_map in Hj.
  set (out := set_nth (map (fun x => Fin (x / temperature)) l2) j NInf).
  intros Hs. apply sample_spec in Hs. destruct Hs as [Hb Hpos].
  intros ->.
  assert (Hjt : Z.to_nat unk_id = j) by (destruct Hju; lia).
  rewrite Hjt in Hpos.
  assert (Hlen : j < List.length (top_k_top_p_filtering out top_k top_p)).
  { rewrite length_top_k_top_p_filtering. unfold out.
    rewrite length_set_nth, length_map. exact Hj. }
  rewrite softmax_NInf in Hpos; [lra | exact Hlen |].
  apply filter_keeps_NInf. unfold at_, out. apply nth_set_nth_eq.
  rewrite length_map. exact Hj.
Qed.

(** C5: no token generated by a run that returns is the [[UNK]] id. *)
Theorem generate_never_unk context length g :
  match generate Gen model sample n_ctx unk_id temperature top_p repitition_penalty top_k
        context length g with
  | Some out => forall t, In t (skipn (List.length context) out) -> t <> unk_id
  | None => True
  end.
Proof.
  unfold generate.
  destruct (loop (Z.to_nat length) context g) as [out|] eqn:E; [|exact I].
  destruct (gen_loop_app (fun t => t <> unk_id) gen_step_not_unk _ _ _ _ E)
    as (suf & -> & _ & Hf).
  rewrite skipn_app, Nat.sub_diag, skipn_all, skipn_O. simpl.
  rewrite Forall_forall in Hf. exact Hf.
Qed.
End DecoderFacts.

(** Witness of C5: the first-positive sampler meets the sampler contract. *)
Lemma generate_never_unk_witness :
  match generate unit (fun _ => Some (repeat 0%R 12)) first_pos_sampler 4 1
          1 0 1 30 [10; 11]%Z 3 tt with
  | Some out => forall t, In t (skipn (List.length [10; 11]%Z) out) -> t <> 1%Z
  | None => True
  end.
Proof.
  apply (generate_never_unk unit (fun _ => Some (repeat 0%R 12)) first_pos_sampler 4 1
           1 0 1 30 first_pos_sampler_spec).
Defined.

(** Witness of C6: the id 10 occurs twice and is divided once. *)
Lemma penalize_once_witness :
  exists out, penalize (repeat 1%R 12) [10; 11; 10]%Z 2 = Some out /\
    List.length out = 12.
Proof.
  destruct (penalize_once (repeat 1%R 12) [10; 11; 10]%Z 2) as (out & H1 & H2 & _).
  - repeat constructor; simpl; lia.
  - exists out. split; [exact H1 | rewrite H2; reflexivity].
Defined.

(** C9 counterexample: [length = 0], [temperature = 0], [top_p = 2],
    [repetition_penalty = -1] and [top_k = -1] raise nothing; the prefix
    is returned. *)
Lemma generate_invalid_config_counterexample :
  generate unit (fun _ => Some (repeat 0%R 12)) first_pos_sampler 4 1
    0 2 (-1) (-1) [10; 11]%Z 0 tt = Some [10; 11]%Z.
Proof. reflexivity. Qed.
(** ** Post-processing of the printed text *)

Lemma str_hashes : str "##"%string = [35; 35]%Z.
Proof. reflexivity. Qed.

Lemma rf_nil k : replace_from [35; 35]%Z [] [] k = [].
Proof. reflexivity. Qed.

Lemma rf_hh (s : list Z) : replace_from [35; 35]%Z [] (35 :: 35 :: s)%Z O = replace_from [35; 35]%Z [] s O.
Proof. reflexivity. Qed.

Lemma rf_h1 : replace_from [35; 35]%Z [] [35%Z] O = [35%Z].
Proof. reflexivity. Qed.

Lemma rf_hc c s :
  c <> 35%Z ->
  replace_from [35; 35]%Z [] (35 :: c :: s)%Z O = (35 :: replace_from [35; 35]%Z [] (c :: s) O)%Z.
Proof.
  intros Hc. cbn [replace_from startswith].
  rewrite ?Z.eqb_refl, (proj2 (Z.eqb_neq 35 c)) by congruence. reflexivity.
Qed.

Lemma rf_c c s :
  c <> 35%Z -> replace_from [35; 35]%Z [] (c :: s) O = c :: replace_from [35; 35]%Z [] s O.
Proof.
  intros Hc. cbn [replace_from startswith].
  rewrite ?Z.eqb_refl, (proj2 (Z.eqb_neq 35 c)) by congruence. reflexivity.
Qed.

Lemma rf_hd s c :
  hd_error (replace_from [35; 35]%Z [] s O) = Some c -> c = 35%Z -> hd_error s = Some 35%Z.
Proof.
  intros H ->. destruct s as [|d s]; [discriminate|].
  destruct (Z.eq_dec d 35) as [->|Hd]; [reflexivity|].
  rewrite rf_c in H by auto. simpl in H. congruence.
Qed.

Lemma not_infix_short (pat l : pystr) : List.length l < List.length pat -> ~ is_infix pat l.
Proof.
  intros Hl (a & b & E). rewrite E, !length_app in Hl. lia.
Qed.

Lemma not_infix_cons c l :
  ~ is_infix [35; 35]%Z l -> (c <> 35%Z \/ hd_error l <> Some 35%Z) ->
  ~ is_infix [35; 35]%Z (c :: l).
Proof.
  intros Hl Hc (a & b & E). destruct a as [|x a]; simpl in E.
  - injection E as -> ->. simpl in Hc. destruct Hc; congruence.
  - injection E as _ E. apply Hl. exists a, b. exact E.
Qed.

(** [s.replace('##', '')] leaves no [##]. *)
Lemma replace_hashes_free s : ~ is_infix [35; 35]%Z (replace_from [35; 35]%Z [] s O).
Proof.
  remember (List.length s) as n eqn:Hn. revert s Hn.
  induction n as [n IH] using lt_wf_ind. intros s Hn.
  destruct s as [|c s]; [apply not_infix_short; simpl; lia|].
  destruct (Z.eq_dec c 35) as [->|Hc].
  - destruct s as [|d s]; [rewrite rf_h1; apply not_infix_short; simpl; lia|].
    destruct (Z.eq_dec d 35) as [->|Hd].
    + rewrite rf_hh. apply (IH (List.length s)); [simpl in Hn; lia | reflexivity].
    + rewrite rf_hc by auto. apply not_infix_cons.
      * apply (IH (List.length (d :: s))); [simpl in *; lia | reflexivity].
      * right. intros H. apply rf_hd in H; [|reflexivity]. simpl in H. congruence.
  - rewrite rf_c by auto. apply not_infix_cons; [|left; auto].
    apply (IH (List.length s)); [simpl in Hn; lia | reflexivity].
Qed.

Lemma lstrip_suffix s : exists p, s = p ++ lstrip s.
Proof.
  induction s as [|c s IH]; simpl; [exists []; reflexivity|].
  destruct (py_isspace c).
  - destruct IH as (p & E). exists (c :: p). simpl. congruence.
  - exists []. reflexivity.
Qed.

Lemma py_strip_infix s : exists p q, s = p ++ py_strip s ++ q.
Proof.
  unfold py_strip. destruct (lstrip_suffix s) as (p & Ep).
  destruct (lstrip_suffix (rev (lstrip s))) as (q & Eq).
  exists p, (rev q). rewrite Ep at 1. f_equal.
  rewrite <- rev_app_distr, <- Eq, rev_involutive. reflexivity.
Qed.

Lemma lstrip_head s c rest : lstrip s = c :: rest -> py_isspace c = false.
Proof.
  induction s as [|d s IH]; simpl; [discriminate|].
  destruct (py_isspace d) eqn:Ed; auto. intros E; injection E as -> _. exact Ed.
Qed.

Lemma lstrip_app x r :
  lstrip (x ++ r) = match lstrip x with [] => lstrip r | l => l ++ r end.
Proof.
  induction x as [|c x IH]; simpl; [reflexivity|].
  destruct (py_isspace c); [exact IH | reflexivity].
Qed.

Lemma lstrip_newlines m x : lstrip (repeat 10%Z m ++ x) = lstrip x.
Proof. induction m as [|m IH]; simpl; auto. Qed.

Lemma rf_newlines_l m s :
  replace_from [35; 35]%Z [] (repeat 10%Z m ++ s) O = repeat 10%Z m ++ replace_from [35; 35]%Z [] s O.
Proof.
  induction m as [|m IH]; simpl repeat; [reflexivity|].
  simpl app. rewrite rf_c by lia. rewrite IH. reflexivity.
Qed.

Lemma rf_snoc s c :
  c <> 35%Z ->
  replace_from [35; 35]%Z [] (s ++ [c]) O = replace_from [35; 35]%Z [] s O ++ [c].
Proof.
  intros Hc. remember (List.length s) as n eqn:Hn. revert s Hn.
  induction n as [n IH] using lt_wf_ind. intros s Hn.
  destruct s as [|d s]; [cbn [app]; rewrite rf_c by auto; reflexivity|].
  destruct (Z.eq_dec d 35) as [->|Hd].
  - destruct s as [|e s].
    + cbn [app]. rewrite rf_hc, (rf_c c []) by auto. reflexivity.
    + destruct (Z.eq_dec e 35) as [->|He].
      * cbn [app]. rewrite !rf_hh. apply (IH (List.length s)); [simpl in Hn; lia | reflexivity].
      * cbn [app]. rewrite (rf_hc e (s ++ [c])), (rf_hc e s) by auto. cbn [app]. f_equal.
        exact (IH (List.length (e :: s)) ltac:(simpl in *; lia) (e :: s) eq_refl).
  - cbn [app]. rewrite (rf_c d (s ++ [c])), (rf_c d s) by auto. cbn [app]. f_equal.
    apply (IH (List.length s)); [simpl in Hn; lia | reflexivity].
Qed.

Lemma rf_newlines_r m s :
  replace_from [35; 35]%Z [] (s ++ repeat 10%Z m) O = replace_from [35; 35]%Z [] s O ++ repeat 10%Z m.
Proof.
  revert s. induction m as [|m IH]; intros s; simpl repeat; [rewrite !app_nil_r; reflexivity|].
  replace (s ++ 10%Z :: repeat 10%Z m) with ((s ++ [10%Z]) ++ repeat 10%Z m)
    by (rewrite <- app_assoc; reflexivity).
  rewrite IH, rf_snoc by lia. rewrite <- app_assoc. reflexivity.
Qed.

Lemma py_strip_newlines_l m x : py_strip (repeat 10%Z m ++ x) = py_strip x.
Proof. unfold py_strip. rewrite lstrip_newlines. reflexivity. Qed.

Lemma py_strip_newlines_r m x : py_strip (x ++ repeat 10%Z m) = py_strip x.
Proof.
  unfold py_strip. rewrite lstrip_app.
  assert (Hr : lstrip (repeat 10%Z m) = [])
    by (rewrite <- (app_nil_r (repeat 10%Z m)), lstrip_newlines; reflexivity).
  destruct (lstrip x) as [|c l] eqn:E; [rewrite Hr; reflexivity|].
  rewrite rev_app_distr, rev_repeat, lstrip_newlines. reflexivity.
Qed.

Lemma special_token_newlines t :
  In t [str "[MASK]"%string; str "[CLS]"%string; str "[SEP]"%string] ->
  exists m, special_token t = repeat 10%Z m.
Proof.
  intros [<-|[<-|[<-|[]]]]; [exists 0 | exists 2 | exists 1]; reflexivity.
Qed.

(** X1: after [.replace('##', '')] and [.strip()], the printed text of a
    sample never contains [##]. *)
Theorem postprocess_no_hashes text : ~ is_infix (str "##"%string) (postprocess text).
Proof.
  unfold postprocess. rewrite str_hashes. simpl py_replace.
  intros (a & b & E).
  destruct (py_strip_infix (replace_from [35; 35]%Z [] (concat (map special_token text)) O))
    as (p & q & Epq).
  apply (replace_hashes_free (concat (map special_token text))).
  exists (p ++ a), (b ++ q). rewrite Epq, E. rewrite <- !app_assoc. reflexivity.
Qed.

(** X2: the printed text of a sample neither starts nor ends with a
    whitespace character. *)
Theorem postprocess_trimmed text :
  (forall c rest, postprocess text = c :: rest -> py_isspace c = false) /\
  (forall c rest, postprocess text = rest ++ [c] -> py_isspace c = false).
Proof.
  unfold postprocess, py_strip.
  set (x := lstrip (py_replace _ _ _)). split.
  - intros c rest E.
    destruct (lstrip_suffix (rev x)) as (q & Eq).
    assert (Ex : x = c :: rest ++ rev q).
    { rewrite <- (rev_involutive x) at 1. rewrite Eq, rev_app_distr, E. reflexivity. }
    unfold x in Ex. eapply lstrip_head. exact Ex.
  - intros c rest E.
    apply (lstrip_head (rev x) c (rev rest)).
    rewrite <- (rev_involutive (lstrip (rev x))), E, rev_app_distr. reflexivity.
Qed.

(** X3: [[MASK]], [[CLS]] and [[SEP]] tokens at the start or at the end of
    the generated tokens do not change the printed text. *)
Theorem postprocess_special_ends t text :
  In t [str "[MASK]"%string; str "[CLS]"%string; str "[SEP]"%string] ->
  postprocess (t :: text) = postprocess text /\
  postprocess (text ++ [t]) = postprocess text.
Proof.
  intros Ht. destruct (special_token_newlines t Ht) as (m & Em).
  unfold postprocess. rewrite str_hashes. simpl py_replace. split.
  - simpl map. simpl concat. rewrite Em, rf_newlines_l. apply py_strip_newlines_l.
  - rewrite map_app, concat_app. simpl map. simpl concat. rewrite app_nil_r, Em.
    rewrite rf_newlines_r. apply py_strip_newlines_r.
Qed.

(** ** More on the filter *)

Lemma list_eq_at (a b : list ER) :
  length a = length b -> (forall i, i < length a -> at_ a i = at_ b i) -> a = b.
Proof. intros Hl H. apply nth_ext with (d := NInf) (d' := NInf); auto. Qed.

Lemma top_k_step_full v k :
  (Z.of_nat (length v) <= k)%Z -> top_k_step v k = v.
Proof.
  intros Hk. destruct (Nat.eq_dec (length v) 0) as [H0|H0].
  { apply top_k_step_noop. lia. }
  apply list_eq_at; [apply length_top_k_step|].
  intros i Hi. rewrite length_top_k_step in Hi.
  rewrite top_k_step_at by lia.
  replace (Z.to_nat (Z.min k (Z.of_nat (length v))) - 1) with (length v - 1) by lia.
  unfold torch_sort; cbn [fst].
  rewrite (nth_map_lt _ _ _ _ 0) by (rewrite sort_indices_length; lia).
  destruct (sorted_position v i Hi) as (t & Ht & Et).
  assert (ER_ltb (at_ v i) (at_ v (nth (length v - 1) (sort_indices v) 0)) = false) as ->.
  { rewrite <- Et. destruct (Nat.lt_ge_cases t (length v - 1)) as [Hlt|Hge].
    - apply sort_before_le, (SSorted_nth _ _ 0 t (length v - 1) (sort_indices_sorted v) Hlt).
      rewrite sort_indices_length; lia.
    - replace t with (length v - 1) by lia. apply ER_ltb_irrefl. }
  reflexivity.
Qed.

Lemma sumR_filter_mono {A : Type} (f : A -> R) (a b : A -> bool) (l : list A) :
  (forall x, In x l -> 0 <= f x)%R -> (forall x, In x l -> a x = true -> b x = true) ->
  (sumR (map f (filter a l)) <= sumR (map f (filter b l)))%R.
Proof.
  induction l as [|x l IH]; intros Hf Hab; [simpl; lra|].
  assert (IH' := IH (fun y Hy => Hf y (or_intror Hy)) (fun y Hy => Hab y (or_intror Hy))).
  assert (Hx := Hf x (or_introl eq_refl)).
  cbn [filter]. destruct (a x) eqn:Ea.
  - rewrite (Hab x (or_introl eq_refl) Ea). cbn [map]. rewrite !sumR_cons. lra.
  - destruct (b x); cbn [map]; [rewrite sumR_cons|]; lra.
Qed.

(** X5: the filter keeps the length of the vector and only ever replaces
    entries by [filter_value]; every other entry is returned unchanged. *)
Theorem top_k_top_p_filtering_entries logits top_k top_p :
  length (top_k_top_p_filtering logits top_k top_p) = length logits /\
  forall i, at_ (top_k_top_p_filtering logits top_k top_p) i = at_ logits i \/
            at_ (top_k_top_p_filtering logits top_k top_p) i = filter_value.
Proof.
  split; [apply length_top_k_top_p_filtering|].
  intros i. unfold top_k_top_p_filtering.
  destruct (top_k_step_thr logits top_k) as (j & _ & Hj).
  destruct (top_p_step_at_cases (top_k_step logits top_k) top_p i) as [-> | ->];
    [|right; reflexivity].
  rewrite Hj. destruct (ER_ltb _ _); [right|left]; reflexivity.
Qed.

(** X6: a [top_k] that is not positive or not below the vocabulary size
    disables top-k: the result is that of [top_k = 0]. *)
Theorem top_k_noop_range logits top_k top_p :
  (top_k <= 0 \/ Z.of_nat (length logits) <= top_k)%Z ->
  top_k_top_p_filtering logits top_k top_p = top_k_top_p_filtering logits 0 top_p.
Proof.
  intros Hk. unfold top_k_top_p_filtering. f_equal.
  rewrite (top_k_step_noop logits 0) by lia.
  destruct Hk; [apply top_k_step_noop; lia | apply top_k_step_full; auto].
Qed.

Lemma top_k_noop_range_witness :
  top_k_top_p_filtering [Fin 0; NInf] 5 0 = top_k_top_p_filtering [Fin 0; NInf] 0 0.
Proof. apply top_k_noop_range. right. simpl. lia. Defined.

(** X7: the surviving entries are closed upwards: when entry [i] survives
    the filter, every entry with a larger logit survives unchanged. *)
Theorem top_k_top_p_filtering_upward logits top_k top_p i j :
  is_fin (at_ (top_k_top_p_filtering logits top_k top_p) i) = true ->
  j < length logits ->
  ER_ltb (at_ logits i) (at_ logits j) = true ->
  at_ (top_k_top_p_filtering logits top_k top_p) j = at_ logits j.
Proof.
  intros Hi Hj Hij. unfold top_k_top_p_filtering in *.
  destruct (top_k_step_thr logits top_k) as (t & _ & Hw).
  set (w := top_k_step logits top_k) in *.
  assert (Hlw : length w = length logits) by apply length_top_k_step.
  assert (Hwi : at_ w i = at_ logits i /\ ER_ltb (at_ logits i) (at_ logits t) = false).
  { destruct (top_p_step_at_cases w top_p i) as [E|E]; rewrite E in Hi; [|discriminate].
    rewrite Hw in Hi |- *.
    destruct (ER_ltb (at_ logits i) (at_ logits t)); [discriminate | split; reflexivity]. }
  destruct Hwi as [Hwi Hit].
  assert (Hwj : at_ w j = at_ logits j).
  { rewrite Hw. destruct (ER_ltb (at_ logits j) (at_ logits t)) eqn:Ejt; [|reflexivity].
    rewrite (ER_ltb_trans _ _ _ Hij Ejt) in Hit. discriminate. }
  destruct (Rlt_dec 0 top_p) as [Hp|Hp]; [|rewrite top_p_step_nonpos by auto; exact Hwj].
  assert (Hin : i < length w).
  { destruct (Nat.lt_ge_cases i (length w)) as [H|H]; auto.
    unfold at_ in Hi. rewrite nth_overflow in Hi; [discriminate|].
    rewrite length_top_p_step. exact H. }
  rewrite top_p_step_at in Hi |- * by (auto; lia).
  destruct (Rlt_dec top_p (mass_before w i)) as [Hm|Hm]; [discriminate|].
  destruct (Rlt_dec top_p (mass_before w j)) as [Hm'|Hm']; [|exact Hwj].
  exfalso. apply Hm. eapply Rlt_le_trans; [exact Hm'|].
  unfold mass_before. apply sumR_filter_mono.
  - intros x _. apply prob_nonneg, sumR_exp_nonneg.
  - intros x _ Hx. eapply sort_before_trans; [exact Hx|].
    unfold sort_before. rewrite Hwi, Hwj, Hij. reflexivity.
Qed.

(** Witness of X7 with [top_k = 2]: the entry [0] is removed, the entry
    [1] survives, and so does the larger entry [2]. *)
Lemma top_k_top_p_filtering_upward_witness :
  at_ (top_k_top_p_filtering [Fin 0; Fin 1; Fin 2] 2 0) 2 = at_ [Fin 0; Fin 1; Fin 2] 2.
Proof.
  apply (top_k_top_p_filtering_upward [Fin 0; Fin 1; Fin 2] 2 0 1 2).
  - unfold top_k_top_p_filtering. rewrite top_p_step_nonpos by lra.
    rewrite top_k_step_at by (simpl; lia).
    cbv -[Rlt_dec Rlt IZR].
    repeat (match goal with |- context [Rlt_dec ?a ?b] => destruct (Rlt_dec a b); try lra end;
            cbv -[Rlt_dec Rlt IZR]).
  - simpl. lia.
  - simpl. destruct (Rlt_dec 1 2); [reflexivity | lra].
Defined.

Lemma filter_true_id {A : Type} (l : list A) : filter (fun _ => true) l = l.
Proof. induction l as [|x l IH]; simpl; congruence. Qed.

(** The probability mass sorted before an entry is at most 1. *)
Lemma mass_before_le_one v i : (mass_before v i <= 1)%R.
Proof.
  unfold mass_before, prob. rewrite sumR_div.
  set (z := sumR (map ER_exp v)).
  assert (Hz : (0 <= z)%R) by apply sumR_exp_nonneg.
  assert (Hle : (sumR (map (fun j => ER_exp (at_ v j))
                  (filter (fun j => sort_before v j i) (seq 0 (length v)))) <= z)%R).
  { unfold z. rewrite sumR_exp_at.
    rewrite <- (filter_true_id (seq 0 (length v))) at 2.
    apply sumR_filter_mono; auto. intros; apply ER_exp_nonneg. }
  destruct (Req_dec z 0) as [E|E].
  - rewrite E. unfold Rdiv. rewrite Rinv_0, Rmult_0_r. lra.
  - replace 1%R with (z / z)%R by (field; exact E).
    unfold Rdiv. apply Rmult_le_compat_r; [left; apply Rinv_0_lt_compat; lra | exact Hle].
Qed.

(** X4: a [top_p] of at least [1.0] removes nothing: the cumulative
    probability before an entry never exceeds 1 (in exact arithmetic), so
    the result is that of [top_p = 0.0] (top-k alone). *)
Theorem top_p_ge_one_noop logits top_k top_p :
  (1 <= top_p)%R ->
  top_k_top_p_filtering logits top_k top_p = top_k_top_p_filtering logits top_k 0.
Proof.
  intros Hp. unfold top_k_top_p_filtering. rewrite (top_p_step_nonpos _ 0) by lra.
  set (w := top_k_step logits top_k).
  apply list_eq_at; [apply length_top_p_step|].
  intros i Hi. rewrite length_top_p_step in Hi. rewrite top_p_step_at by (auto; lra).
  destruct (Rlt_dec top_p (mass_before w i)) as [H|H]; [|reflexivity].
  pose proof (mass_before_le_one w i). lra.
Qed.

Lemma top_p_ge_one_noop_witness :
  top_k_top_p_filtering [Fin 0; Fin 1; NInf] 2 1 = top_k_top_p_filtering [Fin 0; Fin 1; NInf] 2 0.
Proof. apply top_p_ge_one_noop. lra. Defined.


(** ** More on the generation loop *)

Lemma opt_mapM_some {A B : Type} (f : A -> option B) l :
  (forall x, In x l -> f x <> None) -> exists ys, opt_mapM f l = Some ys.
Proof.
  induction l as [|x l IH]; intros H; simpl; [eexists; reflexivity|].
  destruct (f x) as [y|] eqn:E; [|exfalso; apply (H x); [left; reflexivity | exact E]].
  destruct IH as (ys & E').
  { intros z Hz. apply H. right. exact Hz. }
  rewrite E'. eexists; reflexivity.
Qed.

Lemma opt_mapM_in {A B : Type} (f : A -> option B) l ys :
  opt_mapM f l = Some ys -> forall y, In y ys -> exists x, In x l /\ f x = Some y.
Proof.
  revert ys; induction l as [|x l IH]; intros ys; simpl.
  - intros E; injection E as <-. intros _ [].
  - destruct (f x) as [y0|] eqn:E; [|discriminate].
    destruct (opt_mapM f l) as [ys'|] eqn:E'; [|discriminate].
    intros H; injection H as <-. intros y [<-|Hy]; [eauto|].
    destruct (IH ys' eq_refl y Hy) as (x' & ? & ?). eauto.
Qed.

Lemma opt_mapM_none {A B : Type} (f : A -> option B) l x :
  In x l -> f x = None -> opt_mapM f l = None.
Proof.
  induction l as [|y l IH]; simpl; [intros []|].
  intros [->|Hx] Hf; [rewrite Hf; reflexivity|].
  destruct (f y); [|reflexivity]. rewrite IH by auto. reflexivity.
Qed.

Lemma py_index_none n i : py_index n i = None <-> ~ (- Z.of_nat n <= i < Z.of_nat n)%Z.
Proof.
  unfold py_index.
  destruct (Z.leb_spec 0 i), (Z.ltb_spec i (Z.of_nat n)),
    (Z.leb_spec (- Z.of_nat n) i), (Z.ltb_spec i 0); simpl;
    split; intros H'; try discriminate; try reflexivity; lia.
Qed.

Lemma penalize_ok logits ids rp :
  (forall i, In i ids -> (- Z.of_nat (length logits) <= i < Z.of_nat (length logits))%Z) ->
  exists pos out,
    penalize logits ids rp = Some out /\ length out = length logits /\
    forall i, i < length logits ->
      nth i out 0%R = if existsb (Nat.eqb i) pos then (nth i logits 0 / rp)%R else nth i logits 0%R.
Proof.
  intros H.
  destruct (opt_mapM_some (py_index (length logits)) ids) as (pos & E).
  { intros x Hx. rewrite py_index_none. specialize (H x Hx). tauto. }
  assert (HF : Forall (fun j => j < length logits) pos).
  { apply Forall_forall. intros j Hj. destruct (opt_mapM_in _ _ _ E j Hj) as (x & _ & Hx).
    apply py_index_spec in Hx. tauto. }
  destruct (fold_set_nth logits rp pos logits eq_refl HF) as [H1 H2].
  exists pos, (fold_left (fun acc (p : nat * R) => set_nth acc (fst p) (snd p))
                 (combine pos (map (fun j => (nth j logits 0 / rp)%R) pos)) logits).
  unfold penalize. rewrite E. auto.
Qed.

Lemma penalize_length logits ids rp out :
  penalize logits ids rp = Some out -> length out = length logits.
Proof.
  unfold penalize. destruct (opt_mapM _ ids) as [pos|] eqn:E; [|discriminate].
  intros H; injection H as <-.
  assert (HF : Forall (fun j => j < length logits) pos).
  { apply Forall_forall. intros j Hj. destruct (opt_mapM_in _ _ _ E j Hj) as (x & _ & Hx).
    apply py_index_spec in Hx. tauto. }
  exact (proj1 (fold_set_nth logits rp pos logits eq_refl HF)).
Qed.

(** X9: with [repetition_penalty = 1.0] (the default) the penalty leaves
    the logits unchanged, for ids that are valid (possibly negative)
    indices. *)
Theorem penalize_rp_one logits ids :
  (forall i, In i ids -> (- Z.of_nat (length logits) <= i < Z.of_nat (length logits))%Z) ->
  penalize logits ids 1 = Some logits.
Proof.
  intros H. destruct (penalize_ok logits ids 1 H) as (pos & out & E & Hl & Hn).
  rewrite E. f_equal. apply nth_ext with (d := 0%R) (d' := 0%R); [exact Hl|].
  intros i Hi. rewrite Hl in Hi. rewrite Hn by auto.
  destruct (existsb _ _); [|reflexivity]. unfold Rdiv. rewrite Rinv_1. ring.
Qed.

Lemma penalize_rp_one_witness :
  penalize [2; 3; 5]%R [0; -1]%Z 1 = Some [2; 3; 5]%R.
Proof.
  apply penalize_rp_one. intros i [<-|[<-|[]]]; simpl; lia.
Defined.

(** The maximal entry survives the filter (the argument of C10). *)
Lemma filter_keeps_max (logits : list ER) (top_k : Z) (top_p : R) :
  0 < length logits ->
  exists i, i < length logits /\
    (forall j, j < length logits -> ER_ltb (at_ logits i) (at_ logits j) = false) /\
    at_ (top_k_top_p_filtering logits top_k top_p) i = at_ logits i.
Proof.
  intros Hn.
  set (i0 := nth 0 (sort_indices logits) 0).
  assert (Hi0 : i0 < length logits)
    by (apply sort_indices_In, nth_In; rewrite sort_indices_length; auto).
  assert (Hmax : forall j, ER_ltb (at_ logits i0) (at_ logits j) = false).
  { intros j. pose proof (sorted_head_first logits j Hn) as H.
    rewrite sort_before_lex in H. unfold lex_before in H.
    apply orb_false_iff in H as [H _]. exact H. }
  exists i0. split; [auto|]. split; [intros; apply Hmax|].
  destruct (top_k_step_thr logits top_k) as (j & _ & Hw).
  set (w := top_k_step logits top_k) in *.
  assert (Hw0 : at_ w i0 = at_ logits i0) by (rewrite Hw, Hmax; reflexivity).
  unfold top_k_top_p_filtering. fold w.
  destruct (Rlt_dec 0 top_p) as [Hp|Hp].
  - rewrite top_p_step_at by (auto; unfold w; rewrite length_top_k_step; auto).
    assert (Hm : mass_before w i0 = 0%R).
    { unfold mass_before.
      replace (length w) with (length logits) by (symmetry; apply length_top_k_step).
      rewrite (filter_ext_in (fun j' => sort_before w j' i0) (fun j' => sort_before logits j' i0))
        by (intros; eapply sort_before_after_top_k; eauto).
      rewrite filter_all_false; [reflexivity|].
      intros x _. apply sorted_head_first; auto. }
    rewrite Hm. destruct (Rlt_dec top_p 0); [lra|auto].
  - rewrite top_p_step_nonpos by auto. auto.
Qed.

Lemma filter_finite_sum v k p f :
  f < length v -> is_fin (at_ v f) = true ->
  (0 < sumR (map ER_exp (top_k_top_p_filtering v k p)))%R.
Proof.
  intros Hf Hfin.
  destruct (filter_keeps_max v k p) as (i & Hi & Hmax & Hkeep); [lia|].
  apply (sumR_exp_pos _ i); [rewrite length_top_k_top_p_filtering; exact Hi|].
  rewrite Hkeep. specialize (Hmax f Hf).
  destruct (at_ v i); [reflexivity|]. destruct (at_ v f); [discriminate | discriminate].
Qed.

Section DecoderExtra.
Variable Gen : Type.
Variable model : list Z -> option (list R).
Variable sample : Gen -> list R -> option (Z * Gen).
Variables n_ctx unk_id : Z.
Variables temperature top_p repitition_penalty : R.
Variable top_k : Z.

(** X10: when generating at least one token, [generate] raises if the
    prefix holds an id, or the [[UNK]] id is, outside the range of
    indices [-V, V) of the [V] logits the model returns. *)
Theorem generate_raises_out_of_range context length g logits :
  (0 < length)%Z ->
  model (window context n_ctx) = Some logits ->
  ((exists i, In i context /\
      ~ (- Z.of_nat (List.length logits) <= i < Z.of_nat (List.length logits))%Z) \/
   ~ (- Z.of_nat (List.length logits) <= unk_id < Z.of_nat (List.length logits))%Z) ->
  generate Gen model sample n_ctx unk_id temperature top_p repitition_penalty top_k
    context length g = None.
Proof.
  intros Hl Hm Hbad. unfold generate.
  destruct (Z.to_nat length) as [|f] eqn:Ef; [lia|]. cbn [gen_loop].
  assert (E : gen_step Gen model sample n_ctx unk_id temperature top_p repitition_penalty top_k
                context g = None); [|rewrite E; reflexivity].
  unfold gen_step. rewrite Hm.
  destruct Hbad as [(i & Hi & Hr) | Hu].
  - unfold penalize. rewrite (opt_mapM_none _ _ i Hi) by (apply py_index_none; auto).
    reflexivity.
  - destruct (penalize logits context repitition_penalty) as [out|] eqn:Ep; [|reflexivity].
    apply penalize_length in Ep.
    unfold py_setitem. rewrite length_map, Ep. rewrite (proj2 (py_index_none _ _) Hu).
    reflexivity.
Qed.

(** The vector given to [torch.multinomial] at a step whose ids are
    valid indices is a distribution with [[UNK]] at 0 (in real arithmetic). *)
Lemma gen_step_dist generated g logits :
  model (window generated n_ctx) = Some logits ->
  2 <= List.length logits ->
  (forall i, In i generated ->
     (- Z.of_nat (List.length logits) <= i < Z.of_nat (List.length logits))%Z) ->
  (0 <= unk_id < Z.of_nat (List.length logits))%Z ->
  exists ps,
    gen_step Gen model sample n_ctx unk_id temperature top_p repitition_penalty top_k
      generated g = sample g ps /\
    List.length ps = List.length logits /\
    (forall p, In p ps -> 0 <= p)%R /\ sumR ps = 1%R /\ nth (Z.to_nat unk_id) ps 0%R = 0%R.
Proof.
  intros Hm Hn Hids Hu.
  destruct (penalize_ok logits generated repitition_penalty Hids) as (pos & out & Ep & Hlo & _).
  unfold gen_step. rewrite Hm, Ep. unfold py_setitem.
  assert (Hj : py_index (List.length (map (fun x => Fin (x / temperature)) out)) unk_id
               = Some (Z.to_nat unk_id)).
  { unfold py_index. rewrite length_map, Hlo.
    destruct (Z.leb_spec 0 unk_id); [|lia].
    destruct (Z.ltb_spec unk_id (Z.of_nat (List.length logits))); [|lia]. reflexivity. }
  rewrite Hj.
  set (j := Z.to_nat unk_id) in *.
  set (v := set_nth (map (fun x => Fin (x / temperature)) out) j NInf).
  set (F := top_k_top_p_filtering v top_k top_p).
  assert (Hjn : j < List.length logits) by (unfold j; lia).
  assert (Hv : List.length v = List.length logits)
    by (unfold v; rewrite length_set_nth, length_map; exact Hlo).
  assert (HF : List.length F = List.length logits)
    by (unfold F; rewrite length_top_k_top_p_filtering; exact Hv).
  set (f := if Nat.eqb j 0 then 1 else 0).
  assert (Hf : f < List.length logits /\ f <> j)
    by (unfold f; destruct (Nat.eqb_spec j 0); lia).
  assert (Hfin : is_fin (at_ v f) = true).
  { unfold at_, v. rewrite nth_set_nth_neq by (destruct Hf; auto).
    rewrite (nth_map_lt _ _ _ _ 0%R) by lia. reflexivity. }
  assert (Hz : (0 < sumR (map ER_exp F))%R)
    by (apply (filter_finite_sum v top_k top_p f); [lia | exact Hfin]).
  exists (softmax F). split; [reflexivity|].
  split; [unfold softmax; rewrite length_map; exact HF|].
  split; [|split].
  - intros p Hp. unfold softmax in Hp. apply in_map_iff in Hp as (x & <- & _).
    unfold Rdiv. apply Rmult_le_pos; [apply ER_exp_nonneg|].
    left. apply Rinv_0_lt_compat. exact Hz.
  - unfold softmax. cbv zeta. rewrite (sumR_div ER_exp). field. lra.
  - apply softmax_NInf; [lia|]. apply filter_keeps_NInf.
    unfold at_, v. apply nth_set_nth_eq. rewrite length_map. lia.
Qed.

(** X11: at each step whose ids are valid indices, with a vocabulary of at
    least two tokens and a temperature and repetition penalty that are not
    0 (both are divisors), the vector given to [torch.multinomial] is a
    probability distribution over the vocabulary that gives the [[UNK]] id
    probability 0. *)
Theorem gen_step_distribution generated g logits :
  model (window generated n_ctx) = Some logits ->
  2 <= List.length logits ->
  (forall i, In i generated ->
     (- Z.of_nat (List.length logits) <= i < Z.of_nat (List.length logits))%Z) ->
  (0 <= unk_id < Z.of_nat (List.length logits))%Z ->
  temperature <> 0%R -> repitition_penalty <> 0%R ->
  exists ps,
    gen_step Gen model sample n_ctx unk_id temperature top_p repitition_penalty top_k
      generated g = sample g ps /\
    List.length ps = List.length logits /\
    (forall p, In p ps -> 0 <= p)%R /\ sumR ps = 1%R /\ nth (Z.to_nat unk_id) ps 0%R = 0%R.
Proof.
  intros Hm Hn Hids Hu _ _. exact (gen_step_dist generated g logits Hm Hn Hids Hu).
Qed.

Lemma gen_loop_total (V : nat) :
  2 <= V ->
  (forall ctx, exists logits, model ctx = Some logits /\ List.length logits = V) ->
  (forall g0 ps, (forall p, In p ps -> 0 <= p)%R -> sumR ps = 1%R ->
     exists i g1, sample g0 ps = Some (i, g1) /\ (0 <= i < Z.of_nat (List.length ps))%Z) ->
  (0 <= unk_id < Z.of_nat V)%Z ->
  forall fuel generated g,
    (forall i, In i generated -> (- Z.of_nat V <= i < Z.of_nat V)%Z) ->
    exists out,
      gen_loop Gen model sample n_ctx unk_id temperature top_p repitition_penalty top_k
        fuel generated g = Some out /\
      List.length out = List.length generated + fuel.
Proof.
  intros HV Hmodel Hsample Hu fuel. induction fuel as [|fuel IH]; intros generated g Hids.
  - exists generated. split; [reflexivity | lia].
  - cbn [gen_loop].
    destruct (Hmodel (window generated n_ctx)) as (logits & Hm & Hl).
    subst V.
    destruct (gen_step_dist generated g logits Hm HV Hids Hu)
      as (ps & Es & Hps & Hnn & Hsum & _).
    destruct (Hsample g ps Hnn Hsum) as (i & g1 & Ei & Hi).
    rewrite Es, Ei.
    destruct (IH (generated ++ [i]) g1) as (out & Eo & Hlo).
    { intros x Hx. apply in_app_or in Hx as [Hx|[<-|[]]]; [auto|].
      rewrite Hps in Hi. lia. }
    exists out. split; [exact Eo|]. rewrite Hlo, length_app. simpl. lia.
Qed.

(** C9 (corrected): [generate] checks none of its parameters.  For
    [length <= 0] the loop body never runs and the prefix is returned,
    whatever the other parameters are.  For [length >= 1], any
    [temperature] and [repetition_penalty] other than 0 (negative ones
    included), any [top_p] (also outside [[0,1]]) and any [top_k] (also
    negative) are accepted as well: when the model returns [V >= 2]
    logits, the prefix ids and the [[UNK]] id are valid indices and
    [torch.multinomial] returns an index on a distribution, a sequence of
    length [m + length] is returned. *)
Theorem generate_no_validation context length g :
  ((length <= 0)%Z ->
   generate Gen model sample n_ctx unk_id temperature top_p repitition_penalty top_k
     context length g = Some context) /\
  (forall V : nat,
     2 <= V ->
     (forall ctx, exists logits, model ctx = Some logits /\ List.length logits = V) ->
     (forall g0 ps, (forall p, In p ps -> 0 <= p)%R -> sumR ps = 1%R ->
        exists i g1, sample g0 ps = Some (i, g1) /\ (0 <= i < Z.of_nat (List.length ps))%Z) ->
     (forall i, In i context -> (- Z.of_nat V <= i < Z.of_nat V)%Z) ->
     (0 <= unk_id < Z.of_nat V)%Z ->
     temperature <> 0%R -> repitition_penalty <> 0%R ->
     exists out,
       generate Gen model sample n_ctx unk_id temperature top_p repitition_penalty top_k
         context length g = Some out /\
       List.length out = List.length context + Z.to_nat length).
Proof.
  split.
  - intros Hl. unfold generate. replace (Z.to_nat length) with 0 by lia. reflexivity.
  - intros V HV Hmodel Hsample Hids Hu _ _. unfold generate.
    exact (gen_loop_total V HV Hmodel Hsample Hu (Z.to_nat length) context g Hids).
Qed.
End DecoderExtra.

Lemma generate_raises_out_of_range_witness :
  generate unit (fun _ => Some (repeat 0%R 3)) first_pos_sampler 4 1 1 0 1 0 [7]%Z 1 tt = None.
Proof.
  apply (generate_raises_out_of_range unit (fun _ => Some (repeat 0%R 3)) first_pos_sampler
           4 1 1 0 1 0 [7]%Z 1 tt (repeat 0%R 3)).
  - lia.
  - reflexivity.
  - left. exists 7%Z. split; [left; reflexivity | simpl; lia].
Defined.

Lemma gen_step_distribution_witness :
  exists ps,
    gen_step unit (fun _ => Some [1; 2; 3]%R) first_pos_sampler 4 1 1 0 2 2 [2]%Z tt
      = first_pos_sampler tt ps /\
    List.length ps = 3 /\ (forall p, In p ps -> 0 <= p)%R /\ sumR ps = 1%R /\
    nth (Z.to_nat 1) ps 0%R = 0%R.
Proof.
  apply (gen_step_distribution unit (fun _ => Some [1; 2; 3]%R) first_pos_sampler
           4 1 1 0 2 2 [2]%Z tt [1; 2; 3]%R).
  - reflexivity.
  - simpl. lia.
  - intros i [<-|[]]. simpl. lia.
  - simpl. lia.
  - lra.
  - lra.
Defined.

Lemma first_pos_from_zero k ps :
  (forall p, In p ps -> 0 <= p)%R -> first_pos_from k ps = None -> sumR ps = 0%R.
Proof.
  revert k. induction ps as [|p ps IH]; intros k Hnn; simpl; [reflexivity|].
  destruct (Rlt_dec 0 p) as [Hp|Hp]; [discriminate|].
  intros E. rewrite (IH (S k) (fun q Hq => Hnn q (or_intror Hq)) E).
  pose proof (Hnn p (or_introl eq_refl)). lra.
Qed.

(** [first_pos_sampler] returns an index on every distribution. *)
Lemma first_pos_sampler_total g ps :
  (forall p, In p ps -> 0 <= p)%R -> sumR ps = 1%R ->
  exists i g', first_pos_sampler g ps = Some (i, g') /\ (0 <= i < Z.of_nat (length ps))%Z.
Proof.
  intros Hnn Hsum.
  destruct (first_pos_sampler g ps) as [[i g']|] eqn:E.
  - exists i, g'. split; [reflexivity|]. exact (proj1 (first_pos_sampler_spec _ _ _ _ E)).
  - exfalso. unfold first_pos_sampler in E.
    destruct (first_pos_from 0 ps) eqn:E'; [discriminate|].
    rewrite (first_pos_from_zero 0 ps Hnn E') in Hsum. lra.
Qed.

(** Witness of C9 with [temperature = -1], [top_p = 2],
    [repetition_penalty = -1] and [top_k = -1]: at [length = -3] the
    prefix is returned, at [length = 2] a sequence of 4 tokens. *)
Lemma generate_no_validation_witness :
  generate unit (fun _ => Some [1; 2; 3]%R) first_pos_sampler 4 1
    (-1) 2 (-1) (-1) [0; 2]%Z (-3) tt = Some [0; 2]%Z /\
  exists out,
    generate unit (fun _ => Some [1; 2; 3]%R) first_pos_sampler 4 1
      (-1) 2 (-1) (-1) [0; 2]%Z 2 tt = Some out /\
    List.length out = List.length [0; 2]%Z + Z.to_nat 2.
Proof.
  split.
  - apply (proj1 (generate_no_validation unit (fun _ => Some [1; 2; 3]%R) first_pos_sampler
                    4 1 (-1) 2 (-1) (-1) [0; 2]%Z (-3) tt)). lia.
  - apply (proj2 (generate_no_validation unit (fun _ => Some [1; 2; 3]%R) first_pos_sampler
                    4 1 (-1) 2 (-1) (-1) [0; 2]%Z 2 tt) 3).
    + lia.
    + intros ctx. exists [1; 2; 3]%R. split; reflexivity.
    + apply first_pos_sampler_total.
    + intros i [<-|[<-|[]]]; simpl; lia.
    + simpl. lia.
    + lra.
    + lra.
Defined.

(** ** The sampling loop of [main] *)

Section MainFacts.
Variable Gen : Type.
Variable model : list Z -> option (list R).
Variable sample : Gen -> list R -> option (Z * Gen).
Variables n_ctx unk_id : Z.
Variable convert_ids_to_tokens : list Z -> list pystr.
Variable context_tokens : list Z.
Variables length nsamples topk : Z.
Variables temperature topp repetition_penalty : R.

Local Abbreviation loop_st :=
  (gen_loop_st Gen model sample n_ctx unk_id topk temperature topp repetition_penalty).
Local Abbreviation samples :=
  (sample_loop Gen model sample n_ctx unk_id convert_ids_to_tokens context_tokens length topk
     temperature topp repetition_penalty).
Local Abbreviation new_tokens :=
  (main_length n_ctx length).

Lemma gen_loop_st_app fuel generated g out g' :
  loop_st fuel generated g = Some (out, g') ->
  exists suf, out = generated ++ suf /\ List.length suf = fuel.
Proof.
  revert generated g. induction fuel as [|fuel IH]; intros generated g; cbn [gen_loop_st].
  - intros E; injection E as <- _. exists []. rewrite app_nil_r. auto.
  - destruct (gen_step _ _ _ _ _ _ _ _ _ generated g) as [[t g1]|]; [|discriminate].
    intros E. destruct (IH _ _ E) as (suf & -> & Hl).
    exists (t :: suf). rewrite <- app_assoc. split; [reflexivity | simpl; lia].
Qed.

Lemma sample_loop_spec fuel (k : nat) g :
  samples fuel (Z.of_nat k) g = None \/
  exists outs g',
    List.length outs = fuel /\
    Forall (fun out => exists suf, out = context_tokens ++ suf /\
                                   List.length suf = Z.to_nat new_tokens) outs /\
    samples fuel (Z.of_nat k) g =
      Some (printed_samples convert_ids_to_tokens (S k) outs, Z.of_nat (k + fuel), g').
Proof.
  revert k g. induction fuel as [|fuel IH]; intros k g; cbn [sample_loop].
  - right. exists [], g. rewrite Nat.add_0_r. auto.
  - destruct (loop_st (Z.to_nat new_tokens) context_tokens g) as [[out g1]|] eqn:E;
      [|left; reflexivity].
    replace (Z.of_nat k + 1)%Z with (Z.of_nat (S k)) by lia.
    destruct (IH (S k) g1) as [E'|(outs & g' & Hl & Hf & E')]; rewrite E'; [left; reflexivity|].
    right. exists (out :: outs), g'. split; [simpl; lia|]. split.
    + constructor; [|exact Hf]. exact (gen_loop_st_app _ _ _ _ _ E).
    + do 3 f_equal. lia.
Qed.

(** X12: with a negative [--nsamples], [main] never leaves [while True]:
    each iteration generates nothing and prints only the line of 80 [=]. *)
Theorem main_loop_never_returns :
  (nsamples < 0)%Z ->
  forall fuel g,
    main_loop Gen model sample n_ctx unk_id convert_ids_to_tokens context_tokens length
      nsamples topk temperature topp repetition_penalty fuel g = Running (repeat bar fuel).
Proof.
  intros Hn fuel. induction fuel as [|fuel IH]; intros g; [reflexivity|].
  cbn [main_loop]. replace (Z.to_nat nsamples) with 0 by lia. cbn [sample_loop].
  rewrite (proj2 (Z.eqb_neq 0 nsamples)) by lia. rewrite IH. reflexivity.
Qed.

(** X13: with [--nsamples >= 0], [main] runs the body of [while True] once:
    it raises, or returns after printing, for [k = 1 .. nsamples], the
    header of sample [k] and the text of a sequence made of the prefix and
    [n] new tokens ([n = n_ctx] for [--length -1], [max 0 length]
    otherwise), then the line of 80 [=]. *)
Theorem main_loop_single_round fuel g :
  (0 <= nsamples)%Z -> 0 < fuel ->
  main_loop Gen model sample n_ctx unk_id convert_ids_to_tokens context_tokens length
    nsamples topk temperature topp repetition_penalty fuel g = Raised \/
  exists outs,
    List.length outs = Z.to_nat nsamples /\
    Forall (fun out => exists suf, out = context_tokens ++ suf /\
                                   List.length suf = Z.to_nat (main_length n_ctx length)) outs /\
    main_loop Gen model sample n_ctx unk_id convert_ids_to_tokens context_tokens length
      nsamples topk temperature topp repetition_penalty fuel g =
      Returned (printed_samples convert_ids_to_tokens 1 outs ++ [bar]).
Proof.
  intros Hn Hf. destruct fuel as [|fuel]; [lia|]. cbn [main_loop].
  change 0%Z with (Z.of_nat 0).
  destruct (sample_loop_spec (Z.to_nat nsamples) 0 g) as [E|(outs & g' & Hl & Hall & E)];
    rewrite E; [left; reflexivity|].
  replace (Z.of_nat (0 + Z.to_nat nsamples) =? nsamples)%Z with true
    by (symmetry; apply Z.eqb_eq; lia).
  right. exists outs. auto.
Qed.
End MainFacts.

Lemma main_loop_never_returns_witness :
  main_loop unit (fun _ => Some (repeat 0%R 3)) first_pos_sampler 4 1 (fun _ => [])
    [2]%Z 5 (-1) 0 1 0 1 3 tt = Running (repeat bar 3).
Proof.
  apply (main_loop_never_returns unit (fun _ => Some (repeat 0%R 3)) first_pos_sampler 4 1
           (fun _ => []) [2]%Z 5 (-1) 0 1 0 1). lia.
Defined.

(** Witness of X13 with two samples requested. *)
Lemma main_loop_single_round_witness :
  main_loop unit (fun _ => Some [1; 2; 3]%R) first_pos_sampler 4 1 (fun _ => [])
    [2]%Z 5 2 2 1 0 2 1 tt = Raised \/
  exists outs,
    List.length outs = Z.to_nat 2 /\
    Forall (fun out => exists suf, out = [2]%Z ++ suf /\
                                   List.length suf = Z.to_nat (main_length 4 5)) outs /\
    main_loop unit (fun _ => Some [1; 2; 3]%R) first_pos_sampler 4 1 (fun _ => [])
      [2]%Z 5 2 2 1 0 2 1 tt = Returned (printed_samples (fun _ => []) 1 outs ++ [bar]).
Proof.
  apply (main_loop_single_round unit (fun _ => Some [1; 2; 3]%R) first_pos_sampler 4 1
           (fun _ => []) [2]%Z 5 2 2 1 0 2 1 tt); lia.
Defined.

(** Witness of the special-token lemma on a [[CLS]] token. *)
Lemma postprocess_special_ends_witness :
  postprocess (str "[CLS]"%string :: [str "ab"%string]) = postprocess [str "ab"%string] /\
  postprocess ([str "ab"%string] ++ [str "[CLS]"%string]) = postprocess [str "ab"%string].
Proof.
  apply postprocess_special_ends. right. left. reflexivity.
Defined.
